(** * Sightline: realtime session bridge and client media pipeline

    A shallow embedding of the stateful core of the Sightline live agent:

    - [JS]: JavaScript strings as sequences of UTF-16 code units, with the
      whitespace class shared by the regular expression [\s] and by
      [String.prototype.trim];
    - [Transcript]: [normalizeTranscriptText] and [appendEntry] of the
      client application (the transcript log and its de-duplication);
    - [Wire]: the two message vocabularies of the channel;
    - [App]: the handlers of the client application, among them
      [requestVisionFeedback] and the auto-observe interval;
    - [Playback]: the hook [useAgentAudioPlayback] (queue, cursor, drain loop);
    - [SceneGate]: the interval of [useCameraStream], over exact numbers
      (what the gate retains, and bounds on the threshold);
    - [SceneGateFloat]: the same interval in the floating-point arithmetic
      of the source (when the gate emits);
    - [Bridge]: [LiveSessionBridge.handleClientMessage] on the server;
    - [TranscriptFacts], [AppFacts], [BridgeFacts], [PlaybackFacts],
      [SceneGateFacts]: further properties of these;
    - [Channel]: [parseClientMessage] and the message handler of the socket;
    - [Codec]: PCM16 encoding and decoding;
    - [EnvFile]: the loader of the [.env] file;
    - [Connection]: the hook [useLiveConnection].

    Clock values are modelled as exact numbers: [Z] milliseconds for
    [Date.now()], [Q] seconds for [AudioContext.currentTime] and buffer
    durations.  Luma values are exact rationals in [SceneGate] and IEEE 754
    values in [SceneGateFloat].  Calls on the platform (Web Audio, canvas,
    sockets, the session provider) appear as inputs of the handlers and as
    traces of effects. *)

From Stdlib Require Import String Ascii Bool Arith NArith ZArith Lia List Sorted.
From Stdlib Require Import QArith Qminmax Qabs Lqa.
From Stdlib.Strings Require Import Byte.
From Corelib Require SpecFloat.
Import ListNotations.

(** Case analysis on every test a goal branches on, innermost first. *)
Ltac split_branches :=
repeat match goal with
       | |- context [match ?x with _ => _ end] =>
           lazymatch x with
           | context [match _ with _ => _ end] => fail
           | _ => destruct x; cbn
           end
       end.

(* ------------------------------------------------------------------ *)
(** ** JavaScript strings *)

Module JS.

(** A JavaScript string is a sequence of 16-bit code units. *)
Definition codeunit := N.
Definition jsstring := list codeunit.

(** ASCII literals of the source, as code units. *)
Definition str (s : string) : jsstring :=
  map N_of_ascii (list_ascii_of_string s).

Definition eqb (a b : jsstring) : bool :=
  if list_eq_dec N.eq_dec a b then true else false.

Lemma eqb_eq (a b : jsstring) : eqb a b = true <-> a = b.
Proof.
  unfold eqb. destruct (list_eq_dec N.eq_dec a b); split; congruence.
Qed.

(** The character class [\s] of ECMAScript regular expressions; it is also
    the set [WhiteSpace + LineTerminator] stripped by [trim]. *)
Definition isWhiteSpace (c : codeunit) : bool :=
  ((9 <=? c) && (c <=? 13)          (* \t \n \v \f \r *)
   || (c =? 32)                     (* space *)
   || (c =? 160)                    (* U+00A0 *)
   || (c =? 5760)                   (* U+1680 *)
   || ((8192 <=? c) && (c <=? 8202))(* U+2000 .. U+200A *)
   || (c =? 8232) || (c =? 8233)    (* U+2028, U+2029 *)
   || (c =? 8239)                   (* U+202F *)
   || (c =? 8287)                   (* U+205F *)
   || (c =? 12288)                  (* U+3000 *)
   || (c =? 65279))%N.              (* U+FEFF *)

Definition space : codeunit := 32%N.

Fixpoint dropWhile {A} (p : A -> bool) (l : list A) : list A :=
  match l with
  | [] => []
  | x :: r => if p x then dropWhile p r else l
  end.

(** [s.replace(/\s+/g, " ")]: every maximal run of whitespace becomes one
    space.  [inRun] records that the previous code unit was whitespace. *)
Fixpoint replaceRuns (inRun : bool) (s : jsstring) : jsstring :=
  match s with
  | [] => []
  | c :: r =>
      if isWhiteSpace c
      then (if inRun then replaceRuns true r else space :: replaceRuns true r)
      else c :: replaceRuns false r
  end.

Definition collapseWhitespace (s : jsstring) : jsstring := replaceRuns false s.

Definition trimStart (s : jsstring) : jsstring := dropWhile isWhiteSpace s.
Definition trimEnd (s : jsstring) : jsstring := rev (dropWhile isWhiteSpace (rev s)).
Definition trim (s : jsstring) : jsstring := trimEnd (trimStart s).

(** Truthiness of a string: non-empty. *)
Definition truthy (s : jsstring) : bool :=
  match s with [] => false | _ => true end.

(** [blank s]: every code unit of [s] is whitespace. *)
Definition blank (s : jsstring) : bool := forallb isWhiteSpace s.

Lemma dropWhile_nil_iff {A} (p : A -> bool) l :
  dropWhile p l = [] <-> forallb p l = true.
Proof.
  induction l as [|x r IH]; simpl; [tauto|].
  destruct (p x); simpl; [exact IH|]. split; discriminate.
Qed.

Lemma forallb_dropWhile {A} (p : A -> bool) l :
  forallb p (dropWhile p l) = forallb p l.
Proof.
  induction l as [|x r IH]; simpl; [reflexivity|].
  destruct (p x) eqn:E; simpl; [exact IH|]. now rewrite E.
Qed.

Lemma forallb_rev {A} (p : A -> bool) l : forallb p (rev l) = forallb p l.
Proof.
  induction l as [|x r IH]; simpl; [reflexivity|].
  rewrite forallb_app, IH. simpl. rewrite andb_true_r. apply andb_comm.
Qed.

Lemma blank_replaceRuns b s : blank (replaceRuns b s) = blank s.
Proof.
  revert b. induction s as [|c r IH]; intros b; simpl; [reflexivity|].
  destruct (isWhiteSpace c) eqn:E.
  - destruct b; simpl; rewrite IH; reflexivity.
  - simpl. now rewrite E.
Qed.

Lemma blank_trim s : blank (trim s) = blank s.
Proof.
  unfold trim, trimEnd, trimStart, blank.
  now rewrite forallb_rev, forallb_dropWhile, forallb_rev, forallb_dropWhile.
Qed.

Lemma trim_nil_iff s : trim s = [] <-> blank s = true.
Proof.
  unfold trim, trimEnd, trimStart, blank. split.
  - intros H. apply (f_equal (@rev _)) in H. rewrite rev_involutive in H.
    simpl in H. apply dropWhile_nil_iff in H.
    now rewrite forallb_rev, forallb_dropWhile in H.
  - intros H.
    assert (E : dropWhile isWhiteSpace s = []) by now apply dropWhile_nil_iff.
    now rewrite E.
Qed.

End JS.

(* ------------------------------------------------------------------ *)
(** ** Transcript aggregator: the log and its de-duplication *)

Module Transcript.
Import JS.

Inductive Role := user | agent | event.

Definition Role_eqb (a b : Role) : bool :=
  match a, b with
  | user, user | agent, agent | event, event => true
  | _, _ => false
  end.

Lemma Role_eqb_eq a b : Role_eqb a b = true <-> a = b.
Proof. destruct a, b; simpl; split; congruence. Qed.

Record TranscriptEntry := {
  id : jsstring;
  role : Role;
  text : jsstring
}.

(** [Omit<TranscriptEntry, "id">] *)
Record EntryInput := {
  in_role : Role;
  in_text : jsstring
}.

Definition normalizeTranscriptText (value : jsstring) : jsstring :=
  trim (collapseWhitespace value).

(** [previous[previous.length - 1]] *)
Definition lastOf {A} (previous : list A) : option A :=
  nth_error previous (length previous - 1).

(** [previous.slice(-4)] *)
Definition sliceLast {A} (n : nat) (previous : list A) : list A :=
  skipn (length previous - n) previous.

Definition sameAsLast (entry : EntryInput) (previous : list TranscriptEntry) : bool :=
  match lastOf previous with
  | Some last =>
      Role_eqb (role last) (in_role entry)
      && eqb (normalizeTranscriptText (text last))
             (normalizeTranscriptText (in_text entry))
  | None => false
  end.

Definition recentAgentEntries (previous : list TranscriptEntry) : list TranscriptEntry :=
  filter (fun item => Role_eqb (role item) agent) (sliceLast 4 previous).

Definition alreadySeenRecentAgentReply
           (entry : EntryInput) (previous : list TranscriptEntry) : bool :=
  existsb (fun item => eqb (normalizeTranscriptText (text item))
                           (normalizeTranscriptText (in_text entry)))
          (recentAgentEntries previous).

(** [appendEntry], with the state updater of [setEntries] applied to
    [previous]; [newId] is the value [createId()] returns. *)
Definition appendEntry (newId : jsstring) (entry : EntryInput)
           (previous : list TranscriptEntry) : list TranscriptEntry :=
  let normalizedNextText := normalizeTranscriptText (in_text entry) in
  if negb (truthy normalizedNextText) then previous
  else if sameAsLast entry previous then previous
  else if Role_eqb (in_role entry) agent
          && alreadySeenRecentAgentReply entry previous then previous
  else previous ++ [ {| id := newId; role := in_role entry;
                        text := normalizedNextText |} ].

(** The reading of the specification: the last [n] entries of role
    [agent] in the whole log. *)
Definition lastAgentEntries (n : nat) (previous : list TranscriptEntry)
  : list TranscriptEntry :=
  sliceLast n (filter (fun item => Role_eqb (role item) agent) previous).

Lemma normalize_nil_iff s : normalizeTranscriptText s = [] <-> blank s = true.
Proof.
  unfold normalizeTranscriptText, collapseWhitespace.
  rewrite trim_nil_iff. now rewrite blank_replaceRuns.
Qed.

Lemma blank_normalize s : blank (normalizeTranscriptText s) = blank s.
Proof.
  unfold normalizeTranscriptText, collapseWhitespace.
  now rewrite blank_trim, blank_replaceRuns.
Qed.

Lemma normalize_twice_nonempty s :
  normalizeTranscriptText s <> [] ->
  normalizeTranscriptText (normalizeTranscriptText s) <> [].
Proof.
  intros H C. apply normalize_nil_iff in C. rewrite blank_normalize in C.
  apply H. now apply normalize_nil_iff.
Qed.

(** *** Facts about [appendEntry] *)

Definition nonblankText (e : TranscriptEntry) : Prop :=
  normalizeTranscriptText (text e) <> [].

Lemma truthy_false_iff s : truthy s = false <-> s = [].
Proof. destruct s; simpl; split; congruence. Qed.

(** Every branch of [appendEntry] either returns the log or extends it by
    one entry that carries the normalized, non-empty text. *)
Lemma appendEntry_cases newId entry previous :
  appendEntry newId entry previous = previous
  \/ (normalizeTranscriptText (in_text entry) <> []
      /\ appendEntry newId entry previous =
         previous ++ [ {| id := newId; role := in_role entry;
                          text := normalizeTranscriptText (in_text entry) |} ]).
Proof.
  unfold appendEntry.
  destruct (truthy (normalizeTranscriptText (in_text entry))) eqn:T; simpl; [|now left].
  destruct (sameAsLast entry previous); [now left|].
  destruct (Role_eqb (in_role entry) agent && alreadySeenRecentAgentReply entry previous);
    [now left|].
  right. split; [|reflexivity].
  intros C. rewrite C in T. discriminate.
Qed.

Lemma appendEntry_keeps_nonblank newId entry previous :
  Forall nonblankText previous ->
  Forall nonblankText (appendEntry newId entry previous).
Proof.
  intros H. destruct (appendEntry_cases newId entry previous) as [E|[N E]]; rewrite E.
  - exact H.
  - apply Forall_app. split; [exact H|]. constructor; [|constructor].
    unfold nonblankText. simpl. now apply normalize_twice_nonempty.
Qed.

Lemma sameAsLast_true_iff entry previous :
  sameAsLast entry previous = true <->
  exists last, lastOf previous = Some last /\ role last = in_role entry /\
    normalizeTranscriptText (text last) = normalizeTranscriptText (in_text entry).
Proof.
  unfold sameAsLast. destruct (lastOf previous) as [l|].
  - rewrite andb_true_iff, Role_eqb_eq, eqb_eq. split.
    + intros [R T]. now exists l.
    + intros [l' [E [R T]]]. injection E as <-. now split.
  - split; [discriminate|]. intros [l' [E _]]. discriminate.
Qed.

Lemma alreadySeen_true_iff entry previous :
  alreadySeenRecentAgentReply entry previous = true <->
  exists item, In item (sliceLast 4 previous) /\ role item = agent /\
    normalizeTranscriptText (text item) = normalizeTranscriptText (in_text entry).
Proof.
  unfold alreadySeenRecentAgentReply, recentAgentEntries.
  rewrite existsb_exists. split.
  - intros [item [I T]]. apply filter_In in I. destruct I as [I R].
    exists item. rewrite Role_eqb_eq in R. rewrite eqb_eq in T. now repeat split.
  - intros [item [I [R T]]]. exists item. split.
    + apply filter_In. split; [exact I|]. now apply Role_eqb_eq.
    + now apply eqb_eq.
Qed.

(** An entry that is neither blank nor a duplicate is appended. *)
Lemma appendEntry_fresh newId entry previous :
  normalizeTranscriptText (in_text entry) <> [] ->
  sameAsLast entry previous = false ->
  (in_role entry = agent -> alreadySeenRecentAgentReply entry previous = false) ->
  appendEntry newId entry previous =
  previous ++ [ {| id := newId; role := in_role entry;
                   text := normalizeTranscriptText (in_text entry) |} ].
Proof.
  intros N S A. unfold appendEntry.
  destruct (normalizeTranscriptText (in_text entry)) eqn:E; [congruence|]. simpl.
  rewrite S. destruct (Role_eqb (in_role entry) agent) eqn:R; simpl; [|reflexivity].
  apply Role_eqb_eq in R. now rewrite (A R).
Qed.

(** C2 (as amended): at commit time an entry whose normalized text equals
    that of the immediately preceding log entry of the same role is dropped,
    and an agent entry whose normalized text equals that of an agent entry
    found among the last four entries of the log (entries of any role count
    towards the four) is dropped. *)
Theorem appendEntry_drops_duplicates newId entry previous :
  (exists last, lastOf previous = Some last /\ role last = in_role entry /\
     normalizeTranscriptText (text last) = normalizeTranscriptText (in_text entry))
  \/ (in_role entry = agent /\
      exists item, In item (sliceLast 4 previous) /\ role item = agent /\
        normalizeTranscriptText (text item) = normalizeTranscriptText (in_text entry)) ->
  appendEntry newId entry previous = previous.
Proof.
  intros H. unfold appendEntry.
  destruct (truthy (normalizeTranscriptText (in_text entry))); simpl; [|reflexivity].
  destruct H as [H|[R H]].
  - apply sameAsLast_true_iff in H. now rewrite H.
  - destruct (sameAsLast entry previous); [reflexivity|].
    apply alreadySeen_true_iff in H. rewrite H.
    apply Role_eqb_eq in R. now rewrite R.
Qed.

Definition mkEntry (i : string) (r : Role) (t : string) : TranscriptEntry :=
  {| id := str i; role := r; text := str t |}.

(** A log in which the only agent entry lies five entries back. *)
Definition staleAgentLog : list TranscriptEntry :=
  [ mkEntry "1" agent "On it.";
    mkEntry "2" user "thanks";
    mkEntry "3" event "Model output interrupted by new user activity.";
    mkEntry "4" user "wait";
    mkEntry "5" event "Live error: timeout" ].

Lemma appendEntry_drops_duplicates_witness :
  appendEntry (str "7") {| in_role := event; in_text := str " Live  error: timeout " |}
              staleAgentLog
  = staleAgentLog
  /\ appendEntry (str "7") {| in_role := agent; in_text := str "On   it." |}
                 (skipn 1 staleAgentLog ++ [mkEntry "6" agent "On it."; mkEntry "6b" user "ok"])
     = skipn 1 staleAgentLog ++ [mkEntry "6" agent "On it."; mkEntry "6b" user "ok"].
Proof.
  split.
  - apply appendEntry_drops_duplicates. left.
    exists (mkEntry "5" event "Live error: timeout"). repeat split.
  - apply appendEntry_drops_duplicates. right. split; [reflexivity|].
    exists (mkEntry "6" agent "On it."). repeat split.
    right. right. left. reflexivity.
Defined.

(** C2 (as stated) fails: the agent text of [staleAgentLog] is one of the
    last four agent entries of the log, yet a re-emission of it is appended,
    because four newer entries of other roles have pushed it out of
    [previous.slice(-4)]. *)
Lemma agent_duplicate_beyond_last_four_is_appended :
  (exists item, In item (lastAgentEntries 4 staleAgentLog) /\
     normalizeTranscriptText (text item) = normalizeTranscriptText (str "On it."))
  /\ appendEntry (str "6") {| in_role := agent; in_text := str "On it." |} staleAgentLog
     = staleAgentLog ++ [mkEntry "6" agent "On it."].
Proof.
  split.
  - exists (mkEntry "1" agent "On it."). split; [left; reflexivity | reflexivity].
  - vm_compute. reflexivity.
Qed.

End Transcript.

(* ------------------------------------------------------------------ *)
(** ** Wire protocol *)

Module Wire.
Import JS.

Inductive ClientSocketMessage :=
  | SessionConnect (systemInstruction : option jsstring)
  | SessionDisconnect
  | TextTurn (text : jsstring) (turnComplete : option bool)
  | AudioChunk (data mimeType : jsstring)
  | AudioEnd
  | VideoFrame (data mimeType : jsstring)
  | ActivityStart
  | ActivityEnd
  | Ping.

Inductive ServerSocketMessage :=
  | ServerReady (model : jsstring)
  | SessionConnected (sessionId : option jsstring)
  | SessionClosed (reason : option jsstring)
  | UserTranscript (text : jsstring) (finished : bool)
  | AgentTextDelta (text : jsstring)
  | AgentAudioChunk (data mimeType : jsstring)
  | AgentTurnComplete
  | LiveInterrupted
  | LiveWaitingInput (waiting : bool)
  | LiveError (message : jsstring)
  | Pong.

End Wire.

(* ------------------------------------------------------------------ *)
(** ** The client application: transcript aggregation and auto-observe *)

Module App.
Import JS Wire Transcript.

Local Open Scope Z_scope.

Definition manualVisionPrompt : jsstring :=
  str "Analyze the latest camera frame now. Give concise feedback about what you see and one actionable suggestion.".
Definition autoVisionPrompt : jsstring :=
  str "You are in auto-observe mode. Give one concise spoken update about the latest scene change, one practical next step, and ask one short clarifying question only if context is unclear.".
Definition autoObserveFrameIntervalMs : Z := 2500.
Definition userSilenceThresholdMs : Z := 8000.
Definition autoFeedbackCooldownMs : Z := 18000.
Definition autoFeedbackFrameFreshnessMs : Z := 8000.

Inductive ConnectionState := disconnected | connecting | connected.

Inductive Mode := manual | auto.

(** Calls made on the collaborating hooks ([useLiveConnection],
    [useAgentAudioPlayback]) and timers armed, in the order they happen. *)
Inductive Action :=
  | StartSession (systemInstruction : jsstring)
  | StopSession
  | SendTextTurn (text : jsstring) (turnComplete : bool)
  | SendVideoFrame (data mimeType : jsstring)
  | EndAudioStream
  | SendActivityStart
  | SendActivityEndAfter (delayMs : Z)
  | PlayAgentAudioChunk (data mimeType : jsstring)
  | StopAgentAudioPlayback.

(** The component state: [useState] cells, [useRef] cells, the
    [connectionState] handed down by [useLiveConnection], and the trace of
    [Action]s performed so far. *)
#[projections(primitive)]
Record State := mkState {
  systemInstruction : jsstring;
  draftText : jsstring;
  modelLabel : jsstring;
  micEnabled : bool;
  cameraEnabled : bool;
  speakResponses : bool;
  visionAutoFeedbackEnabled : bool;
  waitingForInput : bool;
  entries : list TranscriptEntry;
  userPartial : jsstring;
  agentPartial : jsstring;
  userPartialRef : jsstring;
  lastFrameCaptureAtRef : Z;
  lastVisionFeedbackRequestAtRef : Z;
  lastUserActivityAtRef : Z;
  connectionState : ConnectionState;
  actions : list Action
}.

Definition defaultInstruction : jsstring :=
  str "You are a realtime assistant. Keep responses concise, ask clarifying questions, and adapt to visual context from incoming camera frames.".

Definition initial : State :=
  mkState defaultInstruction [] [] false false true true false
          [] [] [] [] 0 0 0 disconnected [].

Definition setSystemInstruction v '(mkState a b c d e f g h i j k l m n o p q) :=
  mkState v b c d e f g h i j k l m n o p q.
Definition setDraftText v '(mkState a b c d e f g h i j k l m n o p q) :=
  mkState a v c d e f g h i j k l m n o p q.
Definition setModelLabel v '(mkState a b c d e f g h i j k l m n o p q) :=
  mkState a b v d e f g h i j k l m n o p q.
Definition setMicEnabled v '(mkState a b c d e f g h i j k l m n o p q) :=
  mkState a b c v e f g h i j k l m n o p q.
Definition setCameraEnabled v '(mkState a b c d e f g h i j k l m n o p q) :=
  mkState a b c d v f g h i j k l m n o p q.
Definition setSpeakResponses v '(mkState a b c d e f g h i j k l m n o p q) :=
  mkState a b c d e v g h i j k l m n o p q.
Definition setVisionAutoFeedbackEnabled v '(mkState a b c d e f g h i j k l m n o p q) :=
  mkState a b c d e f v h i j k l m n o p q.
Definition setWaitingForInput v '(mkState a b c d e f g h i j k l m n o p q) :=
  mkState a b c d e f g v i j k l m n o p q.
Definition setEntries (u : list TranscriptEntry -> list TranscriptEntry)
    '(mkState a b c d e f g h i j k l m n o p q) :=
  mkState a b c d e f g h (u i) j k l m n o p q.
Definition setUserPartial v '(mkState a b c d e f g h i j k l m n o p q) :=
  mkState a b c d e f g h i v k l m n o p q.
Definition setAgentPartial (u : jsstring -> jsstring)
    '(mkState a b c d e f g h i j k l m n o p q) :=
  mkState a b c d e f g h i j (u k) l m n o p q.
Definition setUserPartialRef v '(mkState a b c d e f g h i j k l m n o p q) :=
  mkState a b c d e f g h i j k v m n o p q.
Definition setLastFrameCaptureAt v '(mkState a b c d e f g h i j k l m n o p q) :=
  mkState a b c d e f g h i j k l v n o p q.
Definition setLastVisionFeedbackRequestAt v '(mkState a b c d e f g h i j k l m n o p q) :=
  mkState a b c d e f g h i j k l m v o p q.
Definition setLastUserActivityAt v '(mkState a b c d e f g h i j k l m n o p q) :=
  mkState a b c d e f g h i j k l m n v p q.
Definition setConnectionState v '(mkState a b c d e f g h i j k l m n o p q) :=
  mkState a b c d e f g h i j k l m n o v q.
Definition perform (act : Action) '(mkState a b c d e f g h i j k l m n o p q) :=
  mkState a b c d e f g h i j k l m n o p (q ++ [act]).

Definition liveInputEnabled (st : State) : bool :=
  match connectionState st with connected => true | _ => false end.

(** [ids k] is the identifier [createId()] yields for the [k]-th entry a
    handler commits. *)
Definition IdSource := nat -> jsstring.

Fixpoint startsWith (s searchString : jsstring) : bool :=
  match searchString, s with
  | [], _ => true
  | p :: ps, c :: cs => (N.eqb c p) && startsWith cs ps
  | _ :: _, [] => false
  end.

Definition logEntry (newId : jsstring) (r : Role) (t : jsstring) (st : State) : State :=
  setEntries (appendEntry newId {| in_role := r; in_text := t |}) st.

Definition flushUserPartial (newId : jsstring) (st : State) : State :=
  let pending := normalizeTranscriptText (userPartialRef st) in
  if negb (truthy pending) then st
  else setUserPartial [] (setUserPartialRef [] (logEntry newId user pending st)).

Definition resetActivityClock (st : State) : State :=
  setLastUserActivityAt 0
    (setLastVisionFeedbackRequestAt 0 (setLastFrameCaptureAt 0 st)).

Definition onServerMessage (now : Z) (ids : IdSource)
             (message : ServerSocketMessage) (st : State) : State :=
  match message with
  | ServerReady model => setModelLabel model st
  | SessionConnected sessionId =>
      let st := setLastUserActivityAt now st in
      let st := setLastVisionFeedbackRequestAt 0 st in
      logEntry (ids 0%nat) event
        (str "Session connected"
         ++ match sessionId with
            | Some sid => if truthy sid then str " (" ++ sid ++ str ")" else []
            | None => []
            end
         ++ str ".") st
  | SessionClosed reason =>
      let st := flushUserPartial (ids 0%nat) st in
      let st := logEntry (ids 1%nat) event
                  match reason with
                  | Some r => if truthy r then str "Session closed: " ++ r
                              else str "Session closed."
                  | None => str "Session closed."
                  end st in
      let st := setMicEnabled false st in
      let st := setCameraEnabled false st in
      let st := setUserPartial [] st in
      let st := setAgentPartial (fun _ => []) st in
      let st := resetActivityClock st in
      perform StopAgentAudioPlayback st
  | UserTranscript text finished =>
      let st := if truthy (trim text) then setLastUserActivityAt now st else st in
      let st := setUserPartialRef text (setUserPartial text st) in
      if finished && truthy (trim text)
      then setUserPartial [] (setUserPartialRef [] (logEntry (ids 0%nat) user text st))
      else st
  | AgentTextDelta text =>
      setAgentPartial
        (fun previous =>
           if negb (truthy previous) then text
           else if startsWith text previous then text
           else previous ++ text) st
  | AgentAudioChunk data mimeType =>
      if speakResponses st then perform (PlayAgentAudioChunk data mimeType) st else st
  | AgentTurnComplete =>
      let st := flushUserPartial (ids 0%nat) st in
      let trimmed := trim (agentPartial st) in
      let st := if truthy trimmed then logEntry (ids 1%nat) agent trimmed st else st in
      setAgentPartial (fun _ => []) st
  | LiveInterrupted =>
      let st := flushUserPartial (ids 0%nat) st in
      let st := logEntry (ids 1%nat) event
                  (str "Model output interrupted by new user activity.") st in
      perform StopAgentAudioPlayback st
  | LiveWaitingInput waiting => setWaitingForInput waiting st
  | LiveError message => logEntry (ids 0%nat) event (str "Live error: " ++ message) st
  | Pong => st
  end.

(** [socket.onmessage] of [useLiveConnection]: the connection state follows
    the session messages, then the message is handed to [onServerMessage]. *)
Definition onSocketMessage (now : Z) (ids : IdSource)
             (parsed : ServerSocketMessage) (st : State) : State :=
  let st := match parsed with
            | SessionConnected _ => setConnectionState connected st
            | SessionClosed _ => setConnectionState disconnected st
            | _ => st
            end in
  onServerMessage now ids parsed st.

Definition onMicStreamError (ids : IdSource) (message : jsstring) (st : State) : State :=
  setMicEnabled false (logEntry (ids 0%nat) event (str "Microphone error: " ++ message) st).

Definition onCameraStreamError (ids : IdSource) (message : jsstring) (st : State) : State :=
  setCameraEnabled false (logEntry (ids 0%nat) event (str "Camera error: " ++ message) st).

Definition onCameraFrame (now : Z) (data mimeType : jsstring) (st : State) : State :=
  perform (SendVideoFrame data mimeType) (setLastFrameCaptureAt now st).

Definition onMicToggle (now : Z) (enabled : bool) (st : State) : State :=
  let st := setMicEnabled enabled (setLastUserActivityAt now st) in
  if negb enabled && liveInputEnabled st then perform EndAudioStream st else st.

Definition quote : jsstring := [34%N].

(** [likelyLive] is the value of [isLikelyLiveModel(modelLabel)], which rests
    on the platform's Unicode lower-casing. *)
Definition onStartSession (likelyLive : bool) (now : Z) (ids : IdSource)
             (st : State) : State :=
  if truthy (modelLabel st) && negb likelyLive
  then logEntry (ids 0%nat) event
         (str "Configured model " ++ quote ++ modelLabel st ++ quote
          ++ str " does not look Live-capable for bidi sessions. "
          ++ str "Set GEMINI_LIVE_MODEL to a current Live model and restart server.") st
  else perform (StartSession (systemInstruction st)) (setLastUserActivityAt now st).

Definition onStopSession (ids : IdSource) (st : State) : State :=
  let st := flushUserPartial (ids 0%nat) st in
  let st := setConnectionState disconnected (perform StopSession st) in
  let st := setMicEnabled false st in
  let st := setCameraEnabled false st in
  let st := setWaitingForInput false st in
  let st := resetActivityClock st in
  perform StopAgentAudioPlayback st.

Definition onSendText (now : Z) (ids : IdSource) (st : State) : State :=
  let trimmed := trim (draftText st) in
  if negb (truthy trimmed) then st
  else
    let st := perform (SendTextTurn trimmed true) st in
    let st := setLastUserActivityAt now st in
    let st := logEntry (ids 0%nat) user trimmed st in
    setDraftText [] st.

Definition isAuto (mode : Mode) : bool :=
  match mode with auto => true | manual => false end.

Definition requestVisionFeedback (mode : Mode) (now : Z) (ids : IdSource)
             (st : State) : State :=
  if negb (liveInputEnabled st) || negb (cameraEnabled st) then st
  else if isAuto mode
          && (now - lastVisionFeedbackRequestAtRef st <? autoFeedbackCooldownMs) then st
  else if isAuto mode
          && (now - lastFrameCaptureAtRef st >? autoFeedbackFrameFreshnessMs) then st
  else
    let st := setLastVisionFeedbackRequestAt now st in
    let st := perform (SendTextTurn (match mode with
                                     | manual => manualVisionPrompt
                                     | auto => autoVisionPrompt
                                     end) true) st in
    match mode with
    | manual => logEntry (ids 0%nat) user (str "[vision] analyze latest frame")
                  (setLastUserActivityAt now st)
    | auto => st
    end.

Definition onInterrupt (now : Z) (st : State) : State :=
  let st := setLastUserActivityAt now st in
  let st := perform SendActivityStart st in
  let st := perform (SendActivityEndAfter 120) st in
  perform StopAgentAudioPlayback st.

(** The effect on [speakResponses]: playback is stopped once it is off. *)
Definition onSpeakResponsesToggle (value : bool) (st : State) : State :=
  let st := setSpeakResponses value st in
  if negb value then perform StopAgentAudioPlayback st else st.

(** The auto-observe effect keeps an interval alive only while its four
    conditions hold; one firing of that interval reads the clock at
    [tickNow], and [requestVisionFeedback] reads it again at [requestNow]. *)
Definition autoObserveActive (st : State) : bool :=
  visionAutoFeedbackEnabled st && liveInputEnabled st
  && cameraEnabled st && waitingForInput st.

Definition autoObserveTick (tickNow requestNow : Z) (ids : IdSource)
             (st : State) : State :=
  if negb (autoObserveActive st) then st
  else if tickNow - lastUserActivityAtRef st <? userSilenceThresholdMs then st
  else requestVisionFeedback auto requestNow ids st.

Inductive Event :=
  | SocketMessage (now : Z) (ids : IdSource) (parsed : ServerSocketMessage)
  | ConnectionStateChanged (cs : ConnectionState)
  | MicStreamError (ids : IdSource) (message : jsstring)
  | CameraStreamError (ids : IdSource) (message : jsstring)
  | CameraFrame (now : Z) (data mimeType : jsstring)
  | MicToggle (now : Z) (enabled : bool)
  | CameraToggle (enabled : bool)
  | SpeakResponsesToggle (value : bool)
  | VisionAutoFeedbackToggle (value : bool)
  | SystemInstructionChange (value : jsstring)
  | DraftTextChange (value : jsstring)
  | StartSessionClick (likelyLive : bool) (now : Z) (ids : IdSource)
  | StopSessionClick (ids : IdSource)
  | SendTextClick (now : Z) (ids : IdSource)
  | RequestVisionFeedbackClick (now : Z) (ids : IdSource)
  | InterruptClick (now : Z)
  | AutoObserveTick (tickNow requestNow : Z) (ids : IdSource).

Definition step (st : State) (e : Event) : State :=
  match e with
  | SocketMessage now ids parsed => onSocketMessage now ids parsed st
  | ConnectionStateChanged cs => setConnectionState cs st
  | MicStreamError ids message => onMicStreamError ids message st
  | CameraStreamError ids message => onCameraStreamError ids message st
  | CameraFrame now data mimeType => onCameraFrame now data mimeType st
  | MicToggle now enabled => onMicToggle now enabled st
  | CameraToggle enabled => setCameraEnabled enabled st
  | SpeakResponsesToggle value => onSpeakResponsesToggle value st
  | VisionAutoFeedbackToggle value => setVisionAutoFeedbackEnabled value st
  | SystemInstructionChange value => setSystemInstruction value st
  | DraftTextChange value => setDraftText value st
  | StartSessionClick likelyLive now ids => onStartSession likelyLive now ids st
  | StopSessionClick ids => onStopSession ids st
  | SendTextClick now ids => onSendText now ids st
  | RequestVisionFeedbackClick now ids => requestVisionFeedback manual now ids st
  | InterruptClick now => onInterrupt now st
  | AutoObserveTick tickNow requestNow ids => autoObserveTick tickNow requestNow ids st
  end.

Definition run (trace : list Event) (st : State) : State := fold_left step trace st.

(** *** The log never holds a blank entry *)

Definition LogOk (st : State) : Prop := Forall nonblankText (entries st).

#[local] Arguments appendEntry : simpl never.
#[local] Arguments normalizeTranscriptText : simpl never.
#[local] Arguments trim : simpl never.
#[local] Arguments str : simpl never.

Ltac log_ok :=
  unfold LogOk in *; cbn; split_branches;
  repeat (apply appendEntry_keeps_nonblank); try assumption.

Lemma flushUserPartial_log newId st : LogOk st -> LogOk (flushUserPartial newId st).
Proof. intros H. unfold flushUserPartial. log_ok. Qed.

Lemma onServerMessage_log now ids message st :
  LogOk st -> LogOk (onServerMessage now ids message st).
Proof.
  intros H. destruct message; unfold onServerMessage, flushUserPartial; log_ok.
Qed.

Lemma requestVisionFeedback_log mode now ids st :
  LogOk st -> LogOk (requestVisionFeedback mode now ids st).
Proof. intros H. unfold requestVisionFeedback. log_ok. Qed.

Lemma step_log st e : LogOk st -> LogOk (step st e).
Proof.
  intros H. destruct e; cbn [step].
  - unfold onSocketMessage. apply onServerMessage_log. destruct parsed; exact H.
  - exact H.
  - unfold onMicStreamError. log_ok.
  - unfold onCameraStreamError. log_ok.
  - exact H.
  - unfold onMicToggle. log_ok.
  - exact H.
  - unfold onSpeakResponsesToggle. log_ok.
  - exact H.
  - exact H.
  - exact H.
  - unfold onStartSession. log_ok.
  - unfold onStopSession, flushUserPartial. log_ok.
  - unfold onSendText. log_ok.
  - now apply requestVisionFeedback_log.
  - exact H.
  - unfold autoObserveTick. split_branches; try exact H.
    now apply requestVisionFeedback_log.
Qed.

Lemma run_log trace : forall st, LogOk st -> LogOk (run trace st).
Proof.
  induction trace as [|e trace IH]; intros st H; [exact H|].
  apply IH. now apply step_log.
Qed.

(** C10: the transcript log never contains an entry whose normalized text
    is empty.  Whatever the component does (server messages, clicks, stream
    errors, timer firings), every entry of the log it reaches from its
    initial state has non-blank normalized text: [appendEntry] is the only
    writer of the log, it drops blank text for every role, and it stores the
    normalized text. *)
Theorem log_entries_never_blank (trace : list Event) :
  Forall (fun e => normalizeTranscriptText (text e) <> []) (entries (run trace initial)).
Proof.
  change (LogOk (run trace initial)). apply run_log. constructor.
Qed.

(** *** Auto-observe guards *)

(** In the words of the specification: the most recent waiting-for-input
    signal ([live.waiting-input]) delivered along [trace]; [before] stands
    for the one in force when the trace starts. *)
Fixpoint mostRecentWaitingSignal (trace : list Event) (before : bool) : bool :=
  match trace with
  | [] => before
  | SocketMessage _ _ (LiveWaitingInput waiting) :: rest =>
      mostRecentWaitingSignal rest waiting
  | _ :: rest => mostRecentWaitingSignal rest before
  end.

(** A step that is not a waiting-for-input signal never turns the flag on. *)
Lemma step_waiting st e :
  match e with
  | SocketMessage _ _ (LiveWaitingInput waiting) => waitingForInput (step st e) = waiting
  | _ => waitingForInput (step st e) = true -> waitingForInput st = true
  end.
Proof.
  destruct e; cbn [step]; try destruct parsed; cbn;
    try reflexivity; try (intros H; exact H);
    unfold flushUserPartial, onMicToggle, onSpeakResponsesToggle, onStartSession,
      onStopSession, onSendText, autoObserveTick, requestVisionFeedback;
    split_branches; try (intros H; exact H); try discriminate.
Qed.

Lemma waiting_tracks_signal trace : forall st before,
  (waitingForInput st = true -> before = true) ->
  waitingForInput (run trace st) = true ->
  mostRecentWaitingSignal trace before = true.
Proof.
  induction trace as [|e rest IH]; intros st before Hb Hw; [now apply Hb|].
  cbn [run fold_left] in Hw. fold (run rest (step st e)) in Hw.
  pose proof (step_waiting st e) as S.
  destruct e; cbn [mostRecentWaitingSignal];
    try (apply (IH _ _ (fun h => Hb (S h)) Hw)).
  destruct parsed; try (apply (IH _ _ (fun h => Hb (S h)) Hw)).
  apply (IH (step st (SocketMessage now ids (LiveWaitingInput waiting)))); [|exact Hw].
  intros h. now rewrite S in h.
Qed.

Lemma requestVisionFeedback_auto_guarded now ids st :
  now - lastVisionFeedbackRequestAtRef st < autoFeedbackCooldownMs
  \/ now - lastFrameCaptureAtRef st > autoFeedbackFrameFreshnessMs ->
  requestVisionFeedback auto now ids st = st.
Proof.
  intros H. unfold requestVisionFeedback.
  destruct (negb (liveInputEnabled st) || negb (cameraEnabled st)); [reflexivity|].
  cbn [isAuto andb].
  destruct (Z.ltb_spec (now - lastVisionFeedbackRequestAtRef st) autoFeedbackCooldownMs)
    as [C|C]; [reflexivity|].
  destruct H as [H|H]; [lia|].
  apply Z.gt_lt in H. apply Z.gtb_lt in H. now rewrite H.
Qed.

(** The stamp [lastVisionFeedbackRequestAtRef] is written by every feedback
    request that goes out, manual or auto, and cleared when a session
    connects, closes or is stopped.  Between two such resets it never moves
    back, provided the clock does not: the cooldown then also runs from the
    moment the last auto-feedback went out. *)
Definition resetsClock (e : Event) : bool :=
  match e with
  | SocketMessage _ _ (SessionConnected _)
  | SocketMessage _ _ (SessionClosed _)
  | StopSessionClick _ => true
  | _ => false
  end.

Definition requestsNoEarlierThan (t : Z) (e : Event) : Prop :=
  match e with
  | RequestVisionFeedbackClick now _ => t <= now
  | AutoObserveTick _ requestNow _ => t <= requestNow
  | _ => True
  end.

Lemma stamp_kept_by_step t st e :
  resetsClock e = false -> requestsNoEarlierThan t e ->
  t <= lastVisionFeedbackRequestAtRef st ->
  t <= lastVisionFeedbackRequestAtRef (step st e).
Proof.
  intros R T H.
  destruct e; cbn [step]; try destruct parsed; try discriminate; cbn in *;
    try exact H;
    unfold flushUserPartial, onMicToggle, onSpeakResponsesToggle, onStartSession,
      onSendText, autoObserveTick, requestVisionFeedback;
    split_branches; assumption.
Qed.

Lemma stamp_kept_within_session t trace : forall st,
  forallb (fun e => negb (resetsClock e)) trace = true ->
  Forall (requestsNoEarlierThan t) trace ->
  t <= lastVisionFeedbackRequestAtRef st ->
  t <= lastVisionFeedbackRequestAtRef (run trace st).
Proof.
  induction trace as [|e trace IH]; intros st R F H; [exact H|].
  simpl in R. apply andb_true_iff in R. destruct R as [R1 R2].
  apply negb_true_iff in R1. inversion F; subst.
  apply IH; [assumption | assumption |]. now apply stamp_kept_by_step.
Qed.

Corollary cooldown_within_session t trace st now ids :
  forallb (fun e => negb (resetsClock e)) trace = true ->
  Forall (requestsNoEarlierThan t) trace ->
  t <= lastVisionFeedbackRequestAtRef st ->
  now - t < autoFeedbackCooldownMs ->
  requestVisionFeedback auto now ids (run trace st) = run trace st.
Proof.
  intros R F H C. apply requestVisionFeedback_auto_guarded. left.
  pose proof (stamp_kept_within_session t trace st R F H). lia.
Qed.

(** A feedback request that goes out stamps the time it read. *)
Lemma request_sent_stamps mode now ids st :
  actions (requestVisionFeedback mode now ids st) <> actions st ->
  lastVisionFeedbackRequestAtRef (requestVisionFeedback mode now ids st) = now.
Proof.
  unfold requestVisionFeedback. destruct st as [a b c d e f g h i j k l m n o p q].
  cbn. split_branches; intros H; try reflexivity; now elim H.
Qed.

Lemma tick_guarded tickNow requestNow ids st :
  requestVisionFeedback auto requestNow ids st = st ->
  autoObserveTick tickNow requestNow ids st = st.
Proof.
  intros R. unfold autoObserveTick.
  destruct (negb (autoObserveActive st)); [reflexivity|].
  destruct (tickNow - lastUserActivityAtRef st <? userSilenceThresholdMs);
    [reflexivity | exact R].
Qed.

(** C8: (1) while the most recent waiting-for-input signal is false, a
    firing of the auto-observe interval sends nothing and changes nothing,
    whatever the clock reads (so whatever the silence duration); (2) within
    one session, whatever the silence: once a feedback request (manual or
    auto) has gone out at time [sentAt], and as long as no [session.connected],
    no [session.closed] and no stop click has followed and the clock has not
    gone back, an auto request made less than the cooldown after [sentAt]
    sends nothing and changes nothing; (3) whatever the silence, an auto
    request sends nothing and changes nothing when the last captured frame
    is older than the freshness window. *)
Theorem auto_observe_guards (trace : list Event) (st0 : State)
          (tickNow requestNow : Z) (ids : IdSource) :
  (mostRecentWaitingSignal trace (waitingForInput st0) = false ->
   autoObserveTick tickNow requestNow ids (run trace st0) = run trace st0)
  /\ (forall (mode : Mode) (sentAt : Z) (ids0 : IdSource),
        actions (requestVisionFeedback mode sentAt ids0 st0) <> actions st0 ->
        forallb (fun e => negb (resetsClock e)) trace = true ->
        Forall (requestsNoEarlierThan sentAt) trace ->
        requestNow - sentAt < autoFeedbackCooldownMs ->
        let st := run trace (requestVisionFeedback mode sentAt ids0 st0) in
        requestVisionFeedback auto requestNow ids st = st
        /\ autoObserveTick tickNow requestNow ids st = st)
  /\ (requestNow - lastFrameCaptureAtRef (run trace st0) > autoFeedbackFrameFreshnessMs ->
      requestVisionFeedback auto requestNow ids (run trace st0) = run trace st0
      /\ autoObserveTick tickNow requestNow ids (run trace st0) = run trace st0).
Proof.
  split; [|split].
  - intros Hs. unfold autoObserveTick, autoObserveActive.
    destruct (waitingForInput (run trace st0)) eqn:W.
    + apply (waiting_tracks_signal trace st0 _ (fun h => h)) in W. congruence.
    + now rewrite !andb_false_r.
  - intros mode sentAt ids0 Sent R F C st.
    assert (G : requestVisionFeedback auto requestNow ids st = st).
    { apply (cooldown_within_session sentAt); try assumption.
      rewrite (request_sent_stamps _ _ _ _ Sent). lia. }
    split; [exact G | now apply tick_guarded].
  - intros H.
    assert (G : requestVisionFeedback auto requestNow ids (run trace st0) = run trace st0)
      by (apply requestVisionFeedback_auto_guarded; now right).
    split; [exact G | now apply tick_guarded].
Qed.

Definition demoIds : IdSource := fun _ => str "id".

(** A session in which the user stays silent: connected at 1 s, camera on,
    a frame at 15 s, the model waiting for input; the interval firing at
    19 s does send the auto-observe prompt. *)
Definition silentStart : list Event :=
  [ SocketMessage 1000 demoIds (SessionConnected None);
    CameraToggle true;
    CameraFrame 15000 (str "AAAA") (str "image/jpeg");
    SocketMessage 15500 demoIds (LiveWaitingInput true) ].

Definition silentSession : list Event :=
  silentStart ++ [ AutoObserveTick 19000 19000 demoIds ].

Example silentSession_sends_once :
  actions (run silentSession initial)
  = [ SendVideoFrame (str "AAAA") (str "image/jpeg"); SendTextTurn autoVisionPrompt true ]
  /\ lastVisionFeedbackRequestAtRef (run silentSession initial) = 19000.
Proof. split; vm_compute; reflexivity. Qed.

(** What follows the prompt of 19 s in the same session: fresh frames, and
    interval firings at 21 s and 30 s. *)
Definition sameSession : list Event :=
  [ AutoObserveTick 21000 21000 demoIds;
    CameraFrame 29000 (str "BBBB") (str "image/jpeg") ].

Lemma auto_observe_guards_witness :
  (autoObserveTick 90000 90000 demoIds
     (run (silentSession ++ [SocketMessage 20000 demoIds (LiveWaitingInput false)]) initial)
   = run (silentSession ++ [SocketMessage 20000 demoIds (LiveWaitingInput false)]) initial)
  /\ (requestVisionFeedback auto 30000 demoIds
        (run sameSession (requestVisionFeedback auto 19000 demoIds (run silentStart initial)))
      = run sameSession (requestVisionFeedback auto 19000 demoIds (run silentStart initial))
      /\ autoObserveTick 30000 30000 demoIds
           (run sameSession (requestVisionFeedback auto 19000 demoIds (run silentStart initial)))
         = run sameSession (requestVisionFeedback auto 19000 demoIds (run silentStart initial)))
  /\ (requestVisionFeedback auto 40000 demoIds (run silentSession initial)
      = run silentSession initial
      /\ autoObserveTick 40000 40000 demoIds (run silentSession initial)
         = run silentSession initial).
Proof.
  split; [|split].
  - apply (proj1 (auto_observe_guards
                    (silentSession ++ [SocketMessage 20000 demoIds (LiveWaitingInput false)])
                    initial 90000 90000 demoIds)).
    reflexivity.
  - apply (proj1 (proj2 (auto_observe_guards sameSession (run silentStart initial)
                           30000 30000 demoIds)) auto 19000 demoIds).
    + vm_compute. discriminate.
    + reflexivity.
    + repeat constructor; vm_compute; discriminate.
    + vm_compute. reflexivity.
  - apply (proj2 (proj2 (auto_observe_guards silentSession initial 40000 40000 demoIds))).
    vm_compute. reflexivity.
Defined.

(** Across sessions the cooldown does not hold.  The session of above is
    closed at 20 s and a new one connects at 21 s; the stamp has been
    cleared, and [waitingForInput] is still set.  With the camera on again
    and a frame at 29 s, the interval firing at 29.5 s sends the auto-observe
    prompt, 10.5 s after the one of 19 s. *)
Definition reconnect : list Event :=
  silentSession
  ++ [ SocketMessage 20000 demoIds (SessionClosed None);
       StartSessionClick true 20500 demoIds;
       SocketMessage 21000 demoIds (SessionConnected None);
       CameraToggle true;
       CameraFrame 29000 (str "BBBB") (str "image/jpeg");
       AutoObserveTick 29500 29500 demoIds ].

Definition autoPromptsOf (l : list Action) : nat :=
  length (filter (fun a => match a with
                           | SendTextTurn text true => JS.eqb text autoVisionPrompt
                           | _ => false
                           end) l).

Lemma auto_prompt_again_after_reconnect :
  autoPromptsOf (actions (run silentSession initial)) = 1%nat
  /\ lastVisionFeedbackRequestAtRef (run silentSession initial) = 19000
  /\ autoPromptsOf (actions (run reconnect initial)) = 2%nat
  /\ lastVisionFeedbackRequestAtRef (run reconnect initial) = 29500
  /\ (29500 - 19000 <? autoFeedbackCooldownMs) = true.
Proof. repeat split; vm_compute; reflexivity. Qed.

End App.

(* ------------------------------------------------------------------ *)
(** ** Audio playback scheduler ([useAgentAudioPlayback]) *)

Module Playback.
Import JS.

Local Open Scope Q_scope.

Record QueuedAudioChunk := {
  data : jsstring;
  mimeType : jsstring
}.

(** An [AudioBuffer], as far as the scheduler reads it: [buffer.duration]
    is [buffer.length / buffer.sampleRate]. *)
Record AudioBuffer := {
  bufferLength : N;
  bufferSampleRate : positive
}.

Definition duration (buffer : AudioBuffer) : Q :=
  Z.of_N (bufferLength buffer) # bufferSampleRate buffer.

(** Audio contexts are told apart by the order of their creation. *)
Definition AudioContext := nat.

(** What the hook does to the Web Audio platform, oldest first. *)
Inductive AudioEffect :=
  | CreateContext (context : AudioContext)
  | CloseContext (context : AudioContext)
  | StartSource (context : AudioContext) (startAt : Q) (buffer : AudioBuffer).

(** The four refs of the hook, the locals of a drain pass that is suspended
    on an [await] ([inFlight]), and the platform effects so far. *)
#[projections(primitive)]
Record Player := mkPlayer {
  contextRef : option AudioContext;
  queueRef : list QueuedAudioChunk;
  processingRef : bool;
  nextPlayTimeRef : Q;
  inFlight : option (AudioContext * QueuedAudioChunk);
  created : nat;
  effects : list AudioEffect
}.

Definition initial : Player := mkPlayer None [] false 0 None 0%nat [].

Definition setContextRef v '(mkPlayer a b c d e f g) := mkPlayer v b c d e f g.
Definition setQueueRef v '(mkPlayer a b c d e f g) := mkPlayer a v c d e f g.
Definition setProcessingRef v '(mkPlayer a b c d e f g) := mkPlayer a b v d e f g.
Definition setNextPlayTimeRef v '(mkPlayer a b c d e f g) := mkPlayer a b c v e f g.
Definition setInFlight v '(mkPlayer a b c d e f g) := mkPlayer a b c d v f g.
Definition setCreated v '(mkPlayer a b c d e f g) := mkPlayer a b c d e v g.
Definition emit (x : AudioEffect) '(mkPlayer a b c d e f g) :=
  mkPlayer a b c d e f (g ++ [x]).

Definition stop (p : Player) : Player :=
  let p := setQueueRef [] p in
  let p := setNextPlayTimeRef 0 p in
  match contextRef p with
  | Some context => emit (CloseContext context) (setContextRef None p)
  | None => p
  end.

(** The synchronous part of [ensureContext]; resuming a suspended context
    is part of the awaited work. *)
Definition ensureContext (p : Player) : AudioContext * Player :=
  match contextRef p with
  | Some context => (context, p)
  | None =>
      let context := created p in
      (context,
       setContextRef (Some context)
         (setCreated (S context) (emit (CreateContext context) p)))
  end.

Definition lookahead : Q := 1 # 100.

(** [currentTime] is [context.currentTime] as read by [scheduleBuffer]. *)
Definition scheduleBuffer (context : AudioContext) (currentTime : Q)
             (buffer : AudioBuffer) (p : Player) : Player :=
  let startAt := Qmax (currentTime + lookahead) (nextPlayTimeRef p) in
  let p := emit (StartSource context startAt buffer) p in
  setNextPlayTimeRef (startAt + duration buffer) p.

(** The head of the [while] loop of [processQueue], run up to its first
    [await]: either the queue is empty and the pass ends ([finally]), or the
    next chunk is shifted, the context is ensured, and the pass suspends. *)
Definition drain (p : Player) : Player :=
  match queueRef p with
  | [] => setProcessingRef false p
  | chunk :: rest =>
      let '(context, p) := ensureContext (setQueueRef rest p) in
      setInFlight (Some (context, chunk)) p
  end.

Definition processQueue (p : Player) : Player :=
  if processingRef p then p else drain (setProcessingRef true p).

Definition enqueueChunk (data mimeType : jsstring) (p : Player) : Player :=
  if negb (truthy data) || negb (truthy mimeType) then p
  else processQueue
         (setQueueRef (queueRef p ++ [ {| data := data; mimeType := mimeType |} ]) p).

(** How the awaited work of a suspended pass ends: the chunk is decoded and
    [scheduleBuffer] runs, or something throws ([ensureContext], the base64
    or audio decoding, the scheduling) and control reaches [catch]. *)
Inductive Outcome :=
  | Decoded (currentTime : Q) (buffer : AudioBuffer)
  | Rejected.

Definition settle (o : Outcome) (p : Player) : Player :=
  match inFlight p with
  | None => p
  | Some (context, _) =>
      let p := setInFlight None p in
      match o with
      | Decoded currentTime buffer => drain (scheduleBuffer context currentTime buffer p)
      | Rejected => setProcessingRef false (stop p)
      end
  end.

Inductive Event :=
  | Enqueue (data mimeType : jsstring)
  | Settle (o : Outcome)
  | Stop.

Definition step (p : Player) (e : Event) : Player :=
  match e with
  | Enqueue data mimeType => enqueueChunk data mimeType p
  | Settle o => settle o p
  | Stop => stop p
  end.

Definition run (trace : list Event) (p : Player) : Player := fold_left step trace p.

(** The sources started so far, oldest first. *)
Definition scheduledOf (l : list AudioEffect) : list (Q * AudioBuffer) :=
  flat_map (fun x => match x with
                     | StartSource _ startAt buffer => [(startAt, buffer)]
                     | _ => []
                     end) l.

Definition scheduled (p : Player) : list (Q * AudioBuffer) := scheduledOf (effects p).

(** [stops e]: the event runs [stop()], directly or from [catch]. *)
Definition stops (e : Event) : bool :=
  match e with
  | Stop | Settle Rejected => true
  | _ => false
  end.

Definition startsInOrder (x y : Q * AudioBuffer) : Prop := fst x <= fst y.
Definition endsBefore (x y : Q * AudioBuffer) : Prop :=
  fst x + duration (snd x) <= fst y.

(** *** The cursor *)

#[local] Arguments scheduledOf : simpl never.

Lemma duration_nonneg buffer : 0 <= duration buffer.
Proof. unfold duration, Qle. simpl. lia. Qed.

Lemma scheduledOf_app l1 l2 : scheduledOf (l1 ++ l2) = scheduledOf l1 ++ scheduledOf l2.
Proof. unfold scheduledOf. apply flat_map_app. Qed.

Lemma Sorted_snoc {A} (R : A -> A -> Prop) l x :
  Sorted R l -> Forall (fun y => R y x) l -> Sorted R (l ++ [x]).
Proof.
  induction l as [|a l IH]; intros S F; simpl.
  - repeat constructor.
  - inversion S as [|? ? S' H]; subst. inversion F as [|? ? Ra F']; subst.
    constructor; [now apply IH|].
    destruct l; simpl; constructor; [exact Ra | now inversion H].
Qed.

(** What one event that does not run [stop()] does to the schedule and to
    the cursor. *)
Lemma step_schedule p e :
  stops e = false ->
  match e, inFlight p with
  | Settle (Decoded currentTime buffer), Some _ =>
      scheduled (step p e)
      = scheduled p ++ [(Qmax (currentTime + lookahead) (nextPlayTimeRef p), buffer)]
      /\ nextPlayTimeRef (step p e)
         = Qmax (currentTime + lookahead) (nextPlayTimeRef p) + duration buffer
  | _, _ =>
      scheduled (step p e) = scheduled p
      /\ nextPlayTimeRef (step p e) = nextPlayTimeRef p
  end.
Proof.
  intros Q. destruct e as [d m|[t b|]|]; try discriminate; cbn [step].
  - assert (G : scheduled (enqueueChunk d m p) = scheduled p
                /\ nextPlayTimeRef (enqueueChunk d m p) = nextPlayTimeRef p).
    { unfold enqueueChunk, processQueue, drain, ensureContext, scheduled. cbn.
      split_branches; rewrite ?scheduledOf_app; cbn; rewrite ?app_nil_r; now split. }
    split_branches; exact G.
  - unfold settle, drain, ensureContext, scheduleBuffer, scheduled. cbn.
    split_branches; rewrite ?scheduledOf_app; cbn; rewrite ?app_nil_r; now split.
Qed.

(** Every started source ends at or before the cursor, and the schedule is
    ordered and free of overlap. *)
Definition Chained (p : Player) : Prop :=
  Sorted startsInOrder (scheduled p)
  /\ Sorted endsBefore (scheduled p)
  /\ Forall (fun x => fst x + duration (snd x) <= nextPlayTimeRef p) (scheduled p).

Lemma step_chained p e :
  stops e = false -> Chained p ->
  Chained (step p e) /\ nextPlayTimeRef p <= nextPlayTimeRef (step p e).
Proof.
  intros Q [S1 [S2 F]]. pose proof (step_schedule p e Q) as H.
  assert (Same : scheduled (step p e) = scheduled p
                 /\ nextPlayTimeRef (step p e) = nextPlayTimeRef p ->
                 Chained (step p e) /\ nextPlayTimeRef p <= nextPlayTimeRef (step p e)).
  { intros [E1 E2]. unfold Chained. rewrite E1, E2. repeat split; auto. apply Qle_refl. }
  destruct e as [d m|[t b|]|]; try discriminate; [destruct (inFlight p); auto|].
  destruct (inFlight p); [|auto]. destruct H as [E1 E2].
  pose proof (Q.le_max_r (t + lookahead) (nextPlayTimeRef p)) as M.
  pose proof (duration_nonneg b) as D.
  unfold Chained. rewrite E1, E2. repeat split.
  - apply Sorted_snoc; [exact S1|]. eapply Forall_impl; [|exact F].
    intros [s c] L. unfold startsInOrder. simpl in *.
    pose proof (duration_nonneg c). lra.
  - apply Sorted_snoc; [exact S2|]. eapply Forall_impl; [|exact F].
    intros [s c] L. unfold endsBefore. simpl in *. lra.
  - apply Forall_app. split.
    + eapply Forall_impl; [|exact F]. intros [s c] L. simpl in *. lra.
    + constructor; [|constructor]. simpl. apply Qle_refl.
  - lra.
Qed.

Lemma run_snoc trace e p : run (trace ++ [e]) p = step (run trace p) e.
Proof. unfold run. now rewrite fold_left_app. Qed.

Lemma run_chained trace : forall p,
  forallb (fun e => negb (stops e)) trace = true -> Chained p -> Chained (run trace p).
Proof.
  induction trace as [|e trace IH]; intros p Q C; [exact C|].
  simpl in Q. apply andb_true_iff in Q. destruct Q as [Q1 Q2].
  apply negb_true_iff in Q1. apply (IH (step p e) Q2).
  now apply step_chained.
Qed.

Lemma initial_chained : Chained initial.
Proof. repeat split; constructor. Qed.

Definition noStop (trace : list Event) : bool :=
  forallb (fun e => negb (stops e)) trace.

(** C1: along any sequence of [enqueueChunk] calls and decode completions
    in which [stop()] never runs, (1) a chunk scheduled by the drain pass
    starts at [max(now + lookahead, nextPlayTime)] and the cursor is then
    that start plus the chunk's duration, while every other event leaves
    schedule and cursor alone; (2) the cursor never decreases; (3) scheduled
    start times are non-decreasing; (4) each chunk starts at or after the
    end of the chunk scheduled before it. *)
Theorem cursor_orders_playback (trace : list Event) (e : Event) :
  noStop (trace ++ [e]) = true ->
  let p := run trace initial in
  let p' := run (trace ++ [e]) initial in
  match e, inFlight p with
  | Settle (Decoded now buffer), Some _ =>
      let startAt := Qmax (now + lookahead) (nextPlayTimeRef p) in
      scheduled p' = scheduled p ++ [(startAt, buffer)]
      /\ nextPlayTimeRef p' = startAt + duration buffer
  | _, _ => scheduled p' = scheduled p /\ nextPlayTimeRef p' = nextPlayTimeRef p
  end
  /\ nextPlayTimeRef p <= nextPlayTimeRef p'
  /\ Sorted startsInOrder (scheduled p')
  /\ Sorted endsBefore (scheduled p').
Proof.
  intros Q p p'. unfold noStop in Q. rewrite forallb_app in Q.
  apply andb_true_iff in Q. destruct Q as [Q1 Q2].
  simpl in Q2. rewrite andb_true_r in Q2. apply negb_true_iff in Q2.
  assert (E : p' = step p e) by apply run_snoc.
  pose proof (@run_chained trace initial Q1 initial_chained) as C. fold p in C.
  destruct (@step_chained p e Q2 C) as [[S1 [S2 _]] M].
  rewrite E. split; [|now repeat split].
  exact (@step_schedule p e Q2).
Qed.

Definition pcmChunk (payload : string) : Event :=
  Enqueue (str payload) (str "audio/pcm;rate=24000").

(** 4800 frames at 24 kHz: a fifth of a second. *)
Definition fifthOfASecond : AudioBuffer :=
  {| bufferLength := 4800; bufferSampleRate := 24000 |}.

(** Three chunks arrive in a burst; the first is decoded at time 0, the
    second at 0.05 (it is chained to the end of the first), the third at
    time 1 (the cursor has fallen behind and catches up). *)
Definition burst : list Event :=
  [ pcmChunk "AAAA"; pcmChunk "BBBB"; pcmChunk "CCCC";
    Settle (Decoded 0 fifthOfASecond);
    Settle (Decoded (5 # 100) fifthOfASecond) ].

Example burst_schedule :
  map (fun x => Qred (fst x))
      (scheduled (run (burst ++ [Settle (Decoded 1 fifthOfASecond)]) initial))
  = [1 # 100; 21 # 100; 101 # 100].
Proof. vm_compute. reflexivity. Qed.

Lemma cursor_orders_playback_witness :
  (scheduled (run (burst ++ [Settle (Decoded 1 fifthOfASecond)]) initial)
   = scheduled (run burst initial)
     ++ [(Qmax (1 + lookahead) (nextPlayTimeRef (run burst initial)), fifthOfASecond)]
   /\ nextPlayTimeRef (run (burst ++ [Settle (Decoded 1 fifthOfASecond)]) initial)
      = Qmax (1 + lookahead) (nextPlayTimeRef (run burst initial))
        + duration fifthOfASecond)
  /\ nextPlayTimeRef (run burst initial)
     <= nextPlayTimeRef (run (burst ++ [Settle (Decoded 1 fifthOfASecond)]) initial)
  /\ Sorted startsInOrder
       (scheduled (run (burst ++ [Settle (Decoded 1 fifthOfASecond)]) initial))
  /\ Sorted endsBefore
       (scheduled (run (burst ++ [Settle (Decoded 1 fifthOfASecond)]) initial)).
Proof.
  exact (@cursor_orders_playback burst (Settle (Decoded 1 fifthOfASecond)) eq_refl).
Defined.

(** *** Abort on a decode failure *)

(** C7: whatever the state of the queue, when the work awaited by a drain
    pass fails, [stop()] runs: the queue is empty, the cursor is 0, the audio
    context is closed and forgotten, the pass is over, and none of the
    chunks that were still queued is scheduled. *)
Theorem decode_failure_aborts (p : Player) (context : AudioContext)
          (chunk : QueuedAudioChunk) :
  inFlight p = Some (context, chunk) ->
  let p' := step p (Settle Rejected) in
  queueRef p' = [] /\ nextPlayTimeRef p' = 0 /\ contextRef p' = None
  /\ processingRef p' = false /\ inFlight p' = None
  /\ scheduled p' = scheduled p
  /\ effects p' = effects p ++ match contextRef p with
                               | Some c => [CloseContext c]
                               | None => []
                               end.
Proof.
  destruct p as [c q pr n i cr ef]. cbn. intros ->.
  unfold settle, stop, scheduled. cbn.
  destruct c; cbn; rewrite ?scheduledOf_app, ?app_nil_r; cbn;
    rewrite ?app_nil_r; repeat split.
Qed.

Lemma decode_failure_aborts_witness :
  queueRef (step (run burst initial) (Settle Rejected)) = []
  /\ nextPlayTimeRef (step (run burst initial) (Settle Rejected)) = 0
  /\ contextRef (step (run burst initial) (Settle Rejected)) = None
  /\ processingRef (step (run burst initial) (Settle Rejected)) = false
  /\ inFlight (step (run burst initial) (Settle Rejected)) = None
  /\ scheduled (step (run burst initial) (Settle Rejected)) = scheduled (run burst initial)
  /\ effects (step (run burst initial) (Settle Rejected))
     = effects (run burst initial)
       ++ match contextRef (run burst initial) with
          | Some c => [CloseContext c]
          | None => []
          end.
Proof.
  exact (@decode_failure_aborts (run burst initial) 0%nat
           {| data := str "CCCC"; mimeType := str "audio/pcm;rate=24000" |} eq_refl).
Defined.

(** *** Empty chunks *)

(** C9: [enqueueChunk] with an empty [data] or an empty [mimeType] changes
    nothing: queue, cursor, context, the processing flag and the platform
    effects are as before, so no drain pass starts. *)
Theorem enqueue_empty_is_noop (data mimeType : jsstring) (p : Player) :
  data = [] \/ mimeType = [] ->
  enqueueChunk data mimeType p = p.
Proof.
  intros [-> | ->]; unfold enqueueChunk; simpl; [reflexivity|].
  now rewrite orb_true_r.
Qed.

Lemma enqueue_empty_is_noop_witness :
  enqueueChunk [] (str "audio/pcm;rate=24000") (run burst initial) = run burst initial
  /\ enqueueChunk (str "AAAA") [] initial = initial.
Proof.
  split.
  - apply enqueue_empty_is_noop. left. reflexivity.
  - apply enqueue_empty_is_noop. right. reflexivity.
Defined.

End Playback.

(* ------------------------------------------------------------------ *)
(** ** Scene-change gate (the interval of [useCameraStream]) *)

Module SceneGate.
Import JS.

Local Open Scope Q_scope.

(** One RGBA pixel of [getImageData(...).data]. *)
Record Pixel := {
  red : N;
  green : N;
  blue : N;
  alpha : N
}.

Definition sceneWidth : nat := 32.
Definition sceneHeight : nat := 18.
Definition cells : nat := sceneWidth * sceneHeight.

(** The weighted sum as an exact number; [SceneGateFloat.luma] is the value
    the source stores. *)
Definition luma (px : Pixel) : Q :=
  inject_Z (Z.of_N (red px)) * (299 # 1000)
  + inject_Z (Z.of_N (green px)) * (587 # 1000)
  + inject_Z (Z.of_N (blue px)) * (114 # 1000).

(** [getSceneSignature]: a zero-filled array of [cells] entries, entry
    [targetIndex] set to the luma of pixel [targetIndex] of the downsampled
    image.  The interval is installed only after [start] has checked the
    scene context, so the result is never [null] there. *)
Definition getSceneSignature (imageData : list Pixel) : list Q :=
  map (fun targetIndex =>
         match nth_error imageData targetIndex with
         | Some px => luma px
         | None => 0
         end)
      (seq 0 cells).

Definition totalDiff (nextSample lastSceneSample : list Q) : Q :=
  fold_left
    (fun total index =>
       total + Qabs (nth index nextSample 0 - nth index lastSceneSample 0))
    (seq 0 (length nextSample)) 0.

Definition averageDiff (nextSample lastSceneSample : list Q) : Q :=
  totalDiff nextSample lastSceneSample / inject_Z (Z.of_nat (length nextSample)).

Definition hasMeaningfulSceneChange (sceneChangeThreshold : Q)
             (lastSceneSample : option (list Q)) (nextSample : list Q) : bool :=
  match lastSceneSample with
  | None => true
  | Some last => Qle_bool sceneChangeThreshold (averageDiff nextSample last)
  end.

(** [s.indexOf(c)], [-1] when absent. *)
Fixpoint indexOf (c : codeunit) (s : jsstring) : Z :=
  match s with
  | [] => -1
  | x :: r => if N.eqb x c then 0%Z
              else match indexOf c r with
                   | Zneg _ => -1
                   | i => i + 1
                   end%Z
  end.

Definition comma : codeunit := 44%N.

(** What one firing of the interval reads from the page: the size of the
    video, the downsampled pixels, and the data URL of the encoded frame. *)
Record Frame := {
  videoWidth : Z;
  videoHeight : Z;
  imageData : list Pixel;
  dataUrl : jsstring
}.

(** The payload handed to [onFrame]: what follows the first comma. *)
Definition payload (frame : Frame) : jsstring :=
  skipn (Z.to_nat (indexOf comma (dataUrl frame) + 1)) (dataUrl frame).

Definition imageJpeg : jsstring := str "image/jpeg".

(** One firing of the interval: the new [lastSceneSample] and the call of
    [onFrame], if any. *)
Definition tick (sceneChangeThreshold : Q) (frame : Frame)
             (lastSceneSample : option (list Q))
    : option (list Q) * option (jsstring * jsstring) :=
  if ((videoWidth frame <=? 0) || (videoHeight frame <=? 0))%Z
  then (lastSceneSample, None)
  else
    let sceneSample := getSceneSignature (imageData frame) in
    if negb (hasMeaningfulSceneChange sceneChangeThreshold lastSceneSample sceneSample)
    then (lastSceneSample, None)
    else
      let lastSceneSample := Some sceneSample in
      if (indexOf comma (dataUrl frame) =? -1)%Z
      then (lastSceneSample, None)
      else (lastSceneSample, Some (payload frame, imageJpeg)).

(** The gate over a sequence of firings.  Besides [lastSceneSample] it
    tracks which frame was last handed to [onFrame]. *)
Record Gate := {
  lastSceneSample : option (list Q);
  lastEmitted : option Frame
}.


Definition fire (sceneChangeThreshold : Q) (g : Gate) (frame : Frame) : Gate :=
  let '(sample, call) := tick sceneChangeThreshold frame (lastSceneSample g) in
  {| lastSceneSample := sample;
     lastEmitted := match call with Some _ => Some frame | None => lastEmitted g end |}.

Definition run (sceneChangeThreshold : Q) (frames : list Frame) (g : Gate) : Gate :=
  fold_left (fire sceneChangeThreshold) frames g.

(** In the words of the specification: the mean absolute per-cell
    difference of two signatures. *)
Definition sumQ (l : list Q) : Q := fold_right Qplus 0 l.

Definition meanAbsDiff (a b : list Q) : Q :=
  sumQ (map (fun xy => Qabs (fst xy - snd xy)) (combine a b))
  / inject_Z (Z.of_nat (length a)).

(** The signature of the downsampled image of a frame. *)
Definition signatureOf (frame : Frame) : list Q := getSceneSignature (imageData frame).

(** The platform's data URLs have the form [data:<type>;base64,<payload>]. *)
Definition hasComma (frame : Frame) : Prop := (0 <= indexOf comma (dataUrl frame))%Z.

Definition validFrame (frame : Frame) : Prop :=
  (0 < videoWidth frame)%Z /\ (0 < videoHeight frame)%Z /\ hasComma frame.

(** *** The loop of [hasMeaningfulSceneChange] computes the mean difference *)

Lemma fold_left_total (f : nat -> Q) l : forall acc,
  fold_left (fun total index => total + f index) l acc == acc + sumQ (map f l).
Proof.
  induction l as [|i l IH]; intros acc; simpl.
  - ring.
  - rewrite IH. ring.
Qed.

Lemma indexed_diffs (a : list Q) : forall b, length b = length a ->
  map (fun index => Qabs (nth index a 0 - nth index b 0)) (seq 0 (length a))
  = map (fun xy => Qabs (fst xy - snd xy)) (combine a b).
Proof.
  induction a as [|x a IH]; intros [|y b] L; try discriminate; [reflexivity|].
  simpl. f_equal. rewrite <- seq_shift, map_map. simpl.
  apply IH. now injection L.
Qed.

Lemma averageDiff_is_mean (a b : list Q) :
  length b = length a -> averageDiff a b == meanAbsDiff a b.
Proof.
  intros L. unfold averageDiff, meanAbsDiff, totalDiff.
  rewrite fold_left_total, (indexed_diffs a b L). now rewrite Qplus_0_l.
Qed.



Lemma signature_length imageData : length (getSceneSignature imageData) = cells.
Proof. unfold getSceneSignature. now rewrite length_map, length_seq. Qed.

(** *** One firing *)

Lemma tick_valid th frame last :
  validFrame frame ->
  tick th frame last
  = if hasMeaningfulSceneChange th last (getSceneSignature (imageData frame))
    then (Some (getSceneSignature (imageData frame)), Some (payload frame, imageJpeg))
    else (last, None).
Proof.
  intros [W [H C]]. unfold tick, hasComma in *.
  apply Z.leb_gt in W. apply Z.leb_gt in H. rewrite W, H. simpl.
  destruct (hasMeaningfulSceneChange th last _); simpl; [|reflexivity].
  assert (E : (indexOf comma (dataUrl frame) =? -1)%Z = false)
    by (apply Z.eqb_neq; lia).
  now rewrite E.
Qed.



(** *** Frames of one grey level *)

Definition grey (level : N) : Pixel :=
  {| red := level; green := level; blue := level; alpha := 255 |}.

Definition solid (level : N) : Frame :=
  {| videoWidth := 960; videoHeight := 540;
     imageData := repeat (grey level) cells;
     dataUrl := str "data:image/jpeg;base64,/9j/4AAQ" |}.

Lemma solid_valid level : validFrame (solid level).
Proof. repeat split. vm_compute. discriminate. Qed.

Lemma solid_payload level : payload (solid level) = str "/9j/4AAQ".
Proof. reflexivity. Qed.

Lemma signature_solid level :
  getSceneSignature (imageData (solid level)) = repeat (luma (grey level)) cells.
Proof.
  unfold getSceneSignature. cbn [imageData solid].
  transitivity (map (fun _ : nat => luma (grey level)) (seq 0 cells)).
  - apply map_ext_in. intros i I. apply in_seq in I.
    now rewrite nth_error_repeat by lia.
  - now rewrite map_const, length_seq.
Qed.

Lemma combine_repeat {A B} (x : A) (y : B) n :
  combine (repeat x n) (repeat y n) = repeat (x, y) n.
Proof. induction n; simpl; [reflexivity | now rewrite IHn]. Qed.

Lemma sumQ_repeat c n : sumQ (repeat c n) == inject_Z (Z.of_nat n) * c.
Proof.
  induction n as [|n IH].
  - simpl. ring.
  - cbn [repeat sumQ fold_right]. fold (sumQ (repeat c n)). rewrite IH.
    rewrite Nat2Z.inj_succ, <- Z.add_1_r, inject_Z_plus. ring.
Qed.

Lemma meanAbsDiff_repeat x y n :
  (0 < n)%nat -> meanAbsDiff (repeat x n) (repeat y n) == Qabs (x - y).
Proof.
  intros P. unfold meanAbsDiff.
  rewrite combine_repeat, map_repeat, sumQ_repeat, repeat_length. cbn [fst snd].
  field. intros C. apply (inject_Z_injective (Z.of_nat n) 0) in C. lia.
Qed.

(** Between two solid frames the mean difference is the difference of
    their grey levels. *)
Lemma meanAbsDiff_solid v w :
  meanAbsDiff (getSceneSignature (imageData (solid v)))
              (getSceneSignature (imageData (solid w)))
  == Qabs (luma (grey v) - luma (grey w)).
Proof.
  rewrite !signature_solid. apply meanAbsDiff_repeat. unfold cells. simpl. lia.
Qed.

(** The gate between two solid frames, by grey levels alone. *)
Lemma solid_tick th v w :
  snd (tick th (solid v) (Some (getSceneSignature (imageData (solid w)))))
  = if Qle_bool th (Qabs (luma (grey v) - luma (grey w)))
    then Some (payload (solid v), imageJpeg) else None.
Proof.
  rewrite (tick_valid th (solid v) _ (solid_valid v)).
  unfold hasMeaningfulSceneChange.
  assert (E : averageDiff (getSceneSignature (imageData (solid v)))
                          (getSceneSignature (imageData (solid w)))
              == Qabs (luma (grey v) - luma (grey w))).
  { rewrite averageDiff_is_mean by now rewrite !signature_length.
    apply meanAbsDiff_solid. }
  destruct (Qle_bool th (averageDiff _ _)) eqn:A;
    destruct (Qle_bool th (Qabs _)) eqn:B; try reflexivity; exfalso.
  - apply Qle_bool_iff in A. rewrite E in A. apply Qle_bool_iff in A. congruence.
  - apply Qle_bool_iff in B. rewrite <- E in B. apply Qle_bool_iff in B. congruence.
Qed.

(** A drift of 8 grey levels per frame: measured against the frame last
    emitted, the first step is suppressed and the second passes. *)
Example drift_accumulates :
  snd (tick 12 (solid 48) (Some (getSceneSignature (imageData (solid 40))))) = None
  /\ snd (tick 12 (solid 56) (Some (getSceneSignature (imageData (solid 40)))))
     = Some (payload (solid 56), imageJpeg).
Proof. rewrite !solid_tick. split; reflexivity. Qed.

(** *** The retained signature *)









End SceneGate.


(* ------------------------------------------------------------------ *)
(** ** The scene gate in the arithmetic of the source

    [getSceneSignature] computes each luma in double precision and stores it
    in a [Float32Array]; [hasMeaningfulSceneChange] sums the differences and
    divides in double precision.  Here the numbers are IEEE 754 values with
    round-to-nearest-even, so that the decision of the gate is the one the
    source takes also where rounding matters. *)

Module SceneGateFloat.
Import JS SpecFloat.

Local Open Scope Z_scope.

(** A JavaScript number. *)
Definition float := spec_float.

Definition zero : float := S754_zero false.
Definition nan : float := S754_nan.

Definition add : float -> float -> float := SFadd 53 1024.
Definition sub : float -> float -> float := SFsub 53 1024.
Definition mul : float -> float -> float := SFmul 53 1024.
Definition div : float -> float -> float := SFdiv 53 1024.
Definition abs : float -> float := SFabs.

(** [x >= y] and [x > y] of the source are [leb y x] and [ltb y x]. *)
Definition leb : float -> float -> bool := SFleb.
Definition ltb : float -> float -> bool := SFltb.

(** The number an integer converts to. *)
Definition ofZ (z : Z) : float := binary_normalize 53 1024 z 0 false.

(** A decimal literal [n/d] of the source: the double nearest to it. *)
Definition decimal (n d : Z) : float := div (ofZ n) (ofZ d).

(** What a [Float32Array] holds after a store, read back as a number. *)
Definition fround (x : float) : float :=
  match x with
  | S754_finite s m e =>
      match binary_round 24 128 s m e with
      | S754_finite s' m' e' => binary_round 53 1024 s' m' e'
      | stored => stored
      end
  | _ => x
  end.

Definition channel (n : N) : float := ofZ (Z.of_N n).

(** [signature[targetIndex] = red * 0.299 + green * 0.587 + blue * 0.114] *)
Definition luma (px : SceneGate.Pixel) : float :=
  fround (add (add (mul (channel (SceneGate.red px)) (decimal 299 1000))
                   (mul (channel (SceneGate.green px)) (decimal 587 1000)))
              (mul (channel (SceneGate.blue px)) (decimal 114 1000))).

Definition getSceneSignature (imageData : list SceneGate.Pixel) : list float :=
  map (fun targetIndex =>
         match nth_error imageData targetIndex with
         | Some px => luma px
         | None => zero
         end)
      (seq 0 SceneGate.cells).

(** Reading past the end of a typed array gives [undefined], which is not
    a number in arithmetic. *)
Definition totalDiff (nextSample lastSceneSample : list float) : float :=
  fold_left
    (fun total index =>
       add total (abs (sub (nth index nextSample nan) (nth index lastSceneSample nan))))
    (seq 0 (length nextSample)) zero.

Definition averageDiff (nextSample lastSceneSample : list float) : float :=
  div (totalDiff nextSample lastSceneSample) (ofZ (Z.of_nat (length nextSample))).

Definition hasMeaningfulSceneChange (sceneChangeThreshold : float)
             (lastSceneSample : option (list float)) (nextSample : list float) : bool :=
  match lastSceneSample with
  | None => true
  | Some last => leb sceneChangeThreshold (averageDiff nextSample last)
  end.

(** One firing of the interval: the new [lastSceneSample] and the call of
    [onFrame], if any. *)
Definition tick (sceneChangeThreshold : float) (frame : SceneGate.Frame)
             (lastSceneSample : option (list float))
    : option (list float) * option (jsstring * jsstring) :=
  if (SceneGate.videoWidth frame <=? 0) || (SceneGate.videoHeight frame <=? 0)
  then (lastSceneSample, None)
  else
    let sceneSample := getSceneSignature (SceneGate.imageData frame) in
    if negb (hasMeaningfulSceneChange sceneChangeThreshold lastSceneSample sceneSample)
    then (lastSceneSample, None)
    else
      let lastSceneSample := Some sceneSample in
      if SceneGate.indexOf SceneGate.comma (SceneGate.dataUrl frame) =? -1
      then (lastSceneSample, None)
      else (lastSceneSample, Some (SceneGate.payload frame, SceneGate.imageJpeg)).

(** In the words of the specification: the mean absolute per-cell
    difference of two signatures, the differences added up cell by cell. *)
Definition meanAbsDiff (a b : list float) : float :=
  div (fold_left add (map (fun xy => abs (sub (fst xy) (snd xy))) (combine a b)) zero)
      (ofZ (Z.of_nat (length a))).

Definition signatureOf (frame : SceneGate.Frame) : list float :=
  getSceneSignature (SceneGate.imageData frame).

(** A frame of one colour. *)
Definition plain (r g b : N) : SceneGate.Frame :=
  {| SceneGate.videoWidth := 960; SceneGate.videoHeight := 540;
     SceneGate.imageData :=
       repeat {| SceneGate.red := r; SceneGate.green := g; SceneGate.blue := b;
                 SceneGate.alpha := 255 |} SceneGate.cells;
     SceneGate.dataUrl := str "data:image/jpeg;base64,/9j/4AAQ" |}.

(** *** The loop computes the mean difference *)

Lemma fold_left_terms (f : nat -> float) l : forall acc,
  fold_left (fun total index => add total (f index)) l acc
  = fold_left add (map f l) acc.
Proof. induction l as [|i l IH]; intros acc; simpl; [reflexivity | apply IH]. Qed.

Lemma indexed_differences (a : list float) : forall b, length b = length a ->
  map (fun index => abs (sub (nth index a nan) (nth index b nan))) (seq 0 (length a))
  = map (fun xy => abs (sub (fst xy) (snd xy))) (combine a b).
Proof.
  induction a as [|x a IH]; intros [|y b] L; try discriminate; [reflexivity|].
  simpl. f_equal. rewrite <- seq_shift, map_map. simpl.
  apply IH. now injection L.
Qed.

Lemma averageDiff_meanAbsDiff (a b : list float) :
  length b = length a -> averageDiff a b = meanAbsDiff a b.
Proof.
  intros L. unfold averageDiff, meanAbsDiff, totalDiff.
  now rewrite fold_left_terms, (indexed_differences a b L).
Qed.

Lemma signature_cells imageData : length (getSceneSignature imageData) = SceneGate.cells.
Proof. unfold getSceneSignature. now rewrite length_map, length_seq. Qed.

Lemma averageDiff_of_signatures frame previous :
  averageDiff (signatureOf frame) (signatureOf previous)
  = meanAbsDiff (signatureOf frame) (signatureOf previous).
Proof.
  apply averageDiff_meanAbsDiff. unfold signatureOf. now rewrite !signature_cells.
Qed.

Lemma tick_of_valid th frame last :
  SceneGate.validFrame frame ->
  tick th frame last
  = if hasMeaningfulSceneChange th last (signatureOf frame)
    then (Some (signatureOf frame), Some (SceneGate.payload frame, SceneGate.imageJpeg))
    else (last, None).
Proof.
  intros [W [H C]]. unfold tick, signatureOf, SceneGate.hasComma in *.
  apply Z.leb_gt in W. apply Z.leb_gt in H. rewrite W, H. simpl.
  destruct (hasMeaningfulSceneChange th last _); simpl; [|reflexivity].
  assert (E : (SceneGate.indexOf SceneGate.comma (SceneGate.dataUrl frame) =? -1) = false)
    by (apply Z.eqb_neq; lia).
  now rewrite E.
Qed.

(** *** A frame against itself *)

(** [nothing x]: [x] is [+0] or not a number. *)
Definition nothing (x : float) : Prop := x = zero \/ x = nan.

Lemma difference_with_self x : nothing (abs (sub x x)).
Proof.
  destruct x as [s|s| |s m e]; unfold nothing, abs, sub, SFsub, SFabs.
  - left. now destruct s.
  - right. now destruct s.
  - now right.
  - left. cbv zeta. now rewrite Z.sub_diag.
Qed.

Lemma sum_of_nothing l : forall acc,
  nothing acc -> Forall nothing l -> nothing (fold_left add l acc).
Proof.
  induction l as [|x l IH]; intros acc A F; [exact A|].
  inversion F as [|? ? X F']; subst. simpl. apply IH; [|exact F'].
  destruct A as [->| ->], X as [->| ->]; unfold nothing; simpl; auto.
Qed.

Lemma averageDiff_with_self (a : list float) :
  length a = SceneGate.cells -> nothing (averageDiff a a).
Proof.
  intros L. rewrite averageDiff_meanAbsDiff by reflexivity. unfold meanAbsDiff.
  assert (S : nothing (fold_left add
                         (map (fun xy => abs (sub (fst xy) (snd xy))) (combine a a)) zero)).
  { apply sum_of_nothing; [now left|]. apply Forall_map, Forall_forall.
    intros [x y] I. assert (x = y) as ->.
    { clear L. induction a as [|z a IH]; simpl in I; [contradiction|].
      destruct I as [I|I]; [now inversion I | now apply IH]. }
    apply difference_with_self. }
  rewrite L. destruct S as [->| ->]; [left | right]; reflexivity.
Qed.

(** A positive threshold is above [+0], and nothing is above what is not a
    number. *)
Lemma positive_exceeds_nothing th x :
  ltb zero th = true -> nothing x -> leb th x = false.
Proof.
  intros P [->| ->].
  - destruct th as [s|s| |s m e]; try discriminate P; destruct s; try discriminate P;
      reflexivity.
  - now destruct th.
Qed.

Lemma identical_frame_suppressed th frame :
  SceneGate.validFrame frame -> ltb zero th = true ->
  tick th frame (Some (signatureOf frame)) = (Some (signatureOf frame), None).
Proof.
  intros V P. rewrite (tick_of_valid _ _ _ V). cbn [hasMeaningfulSceneChange].
  rewrite (positive_exceeds_nothing th _ P); [reflexivity|].
  apply averageDiff_with_self, signature_cells.
Qed.

(** *** Frames of one colour *)

Lemma plain_valid r g b : SceneGate.validFrame (plain r g b).
Proof. repeat split. vm_compute. discriminate. Qed.

Lemma signature_plain r g b :
  signatureOf (plain r g b)
  = repeat (luma {| SceneGate.red := r; SceneGate.green := g; SceneGate.blue := b;
                    SceneGate.alpha := 255 |}) SceneGate.cells.
Proof.
  unfold signatureOf, getSceneSignature. cbn [SceneGate.imageData plain].
  set (px := {| SceneGate.red := r |}).
  transitivity (map (fun _ : nat => luma px) (seq 0 SceneGate.cells)).
  - apply map_ext_in. intros i I. apply in_seq in I.
    now rewrite nth_error_repeat by lia.
  - now rewrite map_const, length_seq.
Qed.

(** Between two plain frames the mean is computed from one difference. *)
Lemma meanAbsDiff_plain x y :
  meanAbsDiff (repeat x SceneGate.cells) (repeat y SceneGate.cells)
  = div (fold_left add (repeat (abs (sub x y)) SceneGate.cells) zero)
        (ofZ (Z.of_nat SceneGate.cells)).
Proof.
  unfold meanAbsDiff.
  now rewrite SceneGate.combine_repeat, map_repeat, repeat_length.
Qed.

Lemma plain_tick th r g b r' g' b' :
  snd (tick th (plain r g b) (Some (signatureOf (plain r' g' b'))))
  = if leb th (meanAbsDiff (signatureOf (plain r g b)) (signatureOf (plain r' g' b')))
    then Some (SceneGate.payload (plain r g b), SceneGate.imageJpeg) else None.
Proof.
  rewrite (tick_of_valid th _ _ (plain_valid r g b)). cbn [hasMeaningfulSceneChange].
  rewrite averageDiff_of_signatures. now destruct (leb th _).
Qed.

(** C4: on a tick with a valid frame (positive video size, well-formed
    data URL), (1) the first frame ever is handed to [onFrame]; (2) once a
    frame has been emitted, the new frame is handed to [onFrame] iff the
    mean absolute per-cell luma difference between its signature and the
    retained signature of that last emitted frame, as the source computes
    it (lumas rounded to single precision, sum and quotient in double
    precision), is at least the threshold; (3) when the threshold is
    positive, a frame identical to the last emitted one is suppressed. *)
Theorem gate_emission (sceneChangeThreshold : float) (frame : SceneGate.Frame)
          (last : option (list float)) :
  SceneGate.validFrame frame ->
  let call := snd (tick sceneChangeThreshold frame last) in
  (last = None -> call = Some (SceneGate.payload frame, SceneGate.imageJpeg))
  /\ (forall emitted : SceneGate.Frame, last = Some (signatureOf emitted) ->
      (call = Some (SceneGate.payload frame, SceneGate.imageJpeg)
       <-> leb sceneChangeThreshold
             (meanAbsDiff (signatureOf frame) (signatureOf emitted)) = true)
      /\ (ltb zero sceneChangeThreshold = true ->
          SceneGate.imageData emitted = SceneGate.imageData frame ->
          call = None)).
Proof.
  intros V call. split; [|intros emitted L; split; [split|]].
  - intros ->. unfold call. now rewrite (tick_of_valid _ _ _ V).
  - unfold call. rewrite (tick_of_valid _ _ _ V), L. cbn [hasMeaningfulSceneChange].
    rewrite averageDiff_of_signatures.
    destruct (leb sceneChangeThreshold _); [reflexivity | discriminate].
  - intros M. unfold call. rewrite (tick_of_valid _ _ _ V), L.
    cbn [hasMeaningfulSceneChange]. rewrite averageDiff_of_signatures. now rewrite M.
  - intros P I. unfold call. rewrite L. unfold signatureOf at 1. rewrite I.
    fold (signatureOf frame). now rewrite (identical_frame_suppressed _ _ V P).
Qed.

Lemma gate_emission_witness :
  snd (tick (ofZ 12) (plain 40 40 40) None)
  = Some (SceneGate.payload (plain 40 40 40), SceneGate.imageJpeg)
  /\ snd (tick (ofZ 12) (plain 60 60 60) (Some (signatureOf (plain 40 40 40))))
     = Some (SceneGate.payload (plain 60 60 60), SceneGate.imageJpeg)
  /\ snd (tick (ofZ 12) (plain 40 40 40) (Some (signatureOf (plain 40 40 40)))) = None.
Proof.
  destruct (gate_emission (ofZ 12) (plain 40 40 40) None (plain_valid 40 40 40))
    as [First _].
  destruct (gate_emission (ofZ 12) (plain 60 60 60) (Some (signatureOf (plain 40 40 40)))
              (plain_valid 60 60 60)) as [_ Changed].
  destruct (gate_emission (ofZ 12) (plain 40 40 40) (Some (signatureOf (plain 40 40 40)))
              (plain_valid 40 40 40)) as [_ Same].
  split; [exact (First eq_refl)|]. split.
  - apply (Changed (plain 40 40 40) eq_refl).
    rewrite !signature_plain, meanAbsDiff_plain. vm_compute. reflexivity.
  - apply (Same (plain 40 40 40) eq_refl); reflexivity.
Defined.

(** With a threshold of 0 the mean difference of a frame from itself, 0,
    is at least the threshold: the identical frame is emitted again. *)
Lemma identical_frame_emitted_at_threshold_zero :
  snd (tick (ofZ 0) (plain 40 40 40) (Some (signatureOf (plain 40 40 40))))
  = Some (SceneGate.payload (plain 40 40 40), SceneGate.imageJpeg).
Proof.
  rewrite plain_tick, !signature_plain, meanAbsDiff_plain.
  vm_compute. reflexivity.
Qed.

(** Rounding decides at the threshold.  The two colours differ by 12 in
    every channel, so their exact lumas differ by 12; the stored lumas
    differ by a little less, and with the threshold at 12 the frame is
    suppressed. *)
Example rounding_at_the_threshold :
  (SceneGate.luma {| SceneGate.red := 12; SceneGate.green := 15; SceneGate.blue := 12;
                     SceneGate.alpha := 255 |}
   - SceneGate.luma {| SceneGate.red := 0; SceneGate.green := 3; SceneGate.blue := 0;
                       SceneGate.alpha := 255 |} == 12)%Q
  /\ snd (tick (ofZ 12) (plain 12 15 12) (Some (signatureOf (plain 0 3 0)))) = None.
Proof.
  split; [reflexivity|].
  rewrite plain_tick, !signature_plain, meanAbsDiff_plain.
  vm_compute. reflexivity.
Qed.

End SceneGateFloat.

(* ------------------------------------------------------------------ *)
(** ** Session bridge ([LiveSessionBridge]) *)

Module Bridge.
Import JS Wire.

(** A handle on an external live session. *)
Definition Session := nat.

Inductive RealtimeInput :=
  | AudioInput (data mimeType : jsstring)
  | AudioStreamEnd
  | VideoInput (data mimeType : jsstring)
  | ActivityStartMarker
  | ActivityEndMarker.

(** The calls the bridge makes on the external session provider. *)
Inductive ExternalCall :=
  | NewGoogleGenAI (apiKey : jsstring)
  | LiveConnect (model : jsstring) (systemInstruction : option jsstring)
  | SessionClose (session : Session)
  | SendClientContent (session : Session) (text : jsstring) (turnComplete : bool)
  | SendRealtimeInput (session : Session) (input : RealtimeInput).

(** A thrown value: an [Error] with its message, or anything else. *)
Inductive Thrown :=
  | ErrorObject (message : jsstring)
  | OtherValue.

(** What a run of the bridge does, oldest first: messages handed to
    [send], and calls on the external provider. *)
Inductive Effect :=
  | Sent (message : ServerSocketMessage)
  | Called (call : ExternalCall).

Record LiveSessionBridge := {
  apiKey : jsstring;
  model : jsstring;
  session : option Session
}.

Definition withSession (s : option Session) (b : LiveSessionBridge) : LiveSessionBridge :=
  {| apiKey := apiKey b; model := model b; session := s |}.

(** The behaviour of the external provider: for each call, whether it
    returns ([None]) or throws, synchronously or as the rejection of the
    promise the bridge awaits; and the handle a successful connect yields. *)
Record External := {
  outcome : ExternalCall -> option Thrown;
  handle : Session
}.

(** Statements of the bridge: they update the bridge, leave a trace of
    effects, and complete normally or abruptly. *)
Inductive Completion (A : Type) :=
  | Normal (value : A)
  | Abrupt (error : Thrown).
Arguments Normal {A} value.
Arguments Abrupt {A} error.

Definition M (A : Type) : Type :=
  LiveSessionBridge -> LiveSessionBridge * list Effect * Completion A.

Definition ret {A} (a : A) : M A := fun b => (b, [], Normal a).

Definition bind {A B} (m : M A) (k : A -> M B) : M B :=
  fun b =>
    match m b with
    | (b1, t1, Normal a) =>
        match k a b1 with (b2, t2, c) => (b2, t1 ++ t2, c) end
    | (b1, t1, Abrupt e) => (b1, t1, Abrupt e)
    end.

Notation "x <- m ;; k" := (bind m (fun x => k))
    (at level 61, m at next level, right associativity).
Notation "m ;; k" := (bind m (fun _ => k))
    (at level 61, right associativity).

Definition send (message : ServerSocketMessage) : M unit :=
  fun b => (b, [Sent message], Normal tt).

Definition getSession : M (option Session) := fun b => (b, [], Normal (session b)).
Definition getApiKey : M jsstring := fun b => (b, [], Normal (apiKey b)).
Definition getModel : M jsstring := fun b => (b, [], Normal (model b)).
Definition setSession (s : option Session) : M unit :=
  fun b => (withSession s b, [], Normal tt).

Definition tryCatch {A} (body : M A) (handler : Thrown -> M A) : M A :=
  fun b =>
    match body b with
    | (b1, t1, Normal a) => (b1, t1, Normal a)
    | (b1, t1, Abrupt e) =>
        match handler e b1 with (b2, t2, c) => (b2, t1 ++ t2, c) end
    end.

Section WithExternal.

Variable ext : External.

Definition external (call : ExternalCall) : M unit :=
  fun b => (b, [Called call],
            match outcome ext call with
            | None => Normal tt
            | Some error => Abrupt error
            end).

Definition disconnect (reason : option jsstring) : M unit :=
  current <- getSession ;;
  match current with
  | None => ret tt
  | Some s =>
      external (SessionClose s) ;;
      setSession None ;;
      send (SessionClosed reason)
  end.

Definition connect (systemInstruction : option jsstring) : M unit :=
  key <- getApiKey ;;
  if negb (truthy key)
  then send (LiveError (str "GEMINI_API_KEY is missing in server environment."))
  else
    current <- getSession ;;
    match current with
    | Some _ => disconnect (Some (str "Reconnecting session."))
    | None => ret tt
    end ;;
    external (NewGoogleGenAI key) ;;
    name <- getModel ;;
    external (LiveConnect name
                match systemInstruction with
                | Some text =>
                    if truthy text && (0 <? List.length (trim text))%nat
                    then Some text else None
                | None => None
                end) ;;
    setSession (Some (handle ext)).

Definition noActiveSession : jsstring :=
  str "No active Live session. Click connect first.".

Definition dispatch (message : ClientSocketMessage) : M unit :=
  match message with
  | SessionConnect systemInstruction => connect systemInstruction
  | SessionDisconnect => disconnect (Some (str "Disconnected by client request."))
  | Ping => send Pong
  | _ =>
      current <- getSession ;;
      match current with
      | None => send (LiveError noActiveSession)
      | Some s =>
          match message with
          | TextTurn text turnComplete =>
              external (SendClientContent s text
                          match turnComplete with Some v => v | None => true end)
          | AudioChunk data mimeType =>
              external (SendRealtimeInput s (AudioInput data mimeType))
          | AudioEnd => external (SendRealtimeInput s AudioStreamEnd)
          | VideoFrame data mimeType =>
              external (SendRealtimeInput s (VideoInput data mimeType))
          | ActivityStart => external (SendRealtimeInput s ActivityStartMarker)
          | ActivityEnd => external (SendRealtimeInput s ActivityEndMarker)
          | _ => ret tt
          end
      end
  end.

Definition describe (error : Thrown) : jsstring :=
  match error with
  | ErrorObject message => message
  | OtherValue => str "Unhandled Live bridge error."
  end.

(** [handleClientMessage]: the dispatch inside [try], the report inside
    [catch]. *)
Definition handleClientMessage (message : ClientSocketMessage) : M unit :=
  tryCatch (dispatch message) (fun error => send (LiveError (describe error))).

End WithExternal.

Definition requiresSession (message : ClientSocketMessage) : bool :=
  match message with
  | SessionConnect _ | SessionDisconnect | Ping => false
  | _ => true
  end.

Definition liveErrors (trace : list Effect) : list ServerSocketMessage :=
  flat_map (fun x => match x with
                     | Sent (LiveError text) => [LiveError text]
                     | _ => []
                     end) trace.

Definition externalCalls (trace : list Effect) : list ExternalCall :=
  flat_map (fun x => match x with Called call => [call] | _ => [] end) trace.

Definition bridgeAfter {A} (r : LiveSessionBridge * list Effect * Completion A) := fst (fst r).
Definition traceOf {A} (r : LiveSessionBridge * list Effect * Completion A) := snd (fst r).
Definition completionOf {A} (r : LiveSessionBridge * list Effect * Completion A) := snd r.

#[local] Arguments str : simpl never.
#[local] Arguments trim : simpl never.

(** Case analysis on the outcome of every external call met, then on every
    other test. *)
Ltac bridge_cases ext :=
  repeat match goal with
         | |- context [outcome ext ?c] =>
             let E := fresh "E" in destruct (outcome ext c) eqn:E; cbn
         | |- context [match ?x with _ => _ end] =>
             lazymatch x with
             | context [match _ with _ => _ end] => fail
             | _ => destruct x; cbn
             end
         end.

Ltac pick_prefix :=
  first [ exists []; reflexivity
        | eexists [_]; reflexivity
        | eexists [_; _]; reflexivity
        | eexists [_; _; _]; reflexivity ].

(** C3: whatever the inbound message and whatever the external provider
    does on each call, [handleClientMessage] completes normally; the bridge
    keeps its configuration; and when a call on the provider fails, that call
    is the last one made, the report is the last message sent, and it is
    the only [live.error] of the run. *)
Theorem failures_are_contained (ext : External) (message : ClientSocketMessage)
          (b : LiveSessionBridge) :
  let r := handleClientMessage ext message b in
  completionOf r = Normal tt
  /\ apiKey (bridgeAfter r) = apiKey b
  /\ model (bridgeAfter r) = model b
  /\ (forall call error,
        In call (externalCalls (traceOf r)) -> outcome ext call = Some error ->
        liveErrors (traceOf r) = [LiveError (describe error)]
        /\ exists before,
             traceOf r = before ++ [Called call; Sent (LiveError (describe error))]).
Proof.
  destruct b as [key name [s|]]; destruct message;
    unfold handleClientMessage, tryCatch, dispatch, connect, disconnect, bind,
      external, send, getSession, getApiKey, getModel, setSession, ret,
      bridgeAfter, traceOf, completionOf;
    cbn; bridge_cases ext;
    (split; [reflexivity|]); (split; [reflexivity|]); (split; [reflexivity|]);
    intros call error I O; cbn in I;
    repeat match type of I with
           | _ \/ _ => destruct I as [I|I]
           | False => contradiction
           | _ = _ => subst call
           end;
    try congruence;
    match goal with
    | E : outcome ext ?c = Some ?e |- _ =>
        rewrite E in O; injection O as <-
    end;
    (split; [reflexivity | pick_prefix]).
Qed.

(** A provider whose handshake is rejected. *)
Definition quotaExhausted : External :=
  {| outcome := fun call =>
                  match call with
                  | LiveConnect _ _ => Some (ErrorObject (str "Quota exceeded."))
                  | _ => None
                  end;
     handle := 7%nat |}.

Definition connectedBridge : LiveSessionBridge :=
  {| apiKey := str "key"; model := str "gemini-live"; session := Some 3%nat |}.

Lemma failures_are_contained_witness :
  completionOf (handleClientMessage quotaExhausted (SessionConnect None) connectedBridge)
  = Normal tt
  /\ traceOf (handleClientMessage quotaExhausted (SessionConnect None) connectedBridge)
     = [ Called (SessionClose 3%nat);
         Sent (SessionClosed (Some (str "Reconnecting session.")));
         Called (NewGoogleGenAI (str "key"));
         Called (LiveConnect (str "gemini-live") None);
         Sent (LiveError (str "Quota exceeded.")) ]
  /\ liveErrors (traceOf (handleClientMessage quotaExhausted (SessionConnect None)
                            connectedBridge))
     = [LiveError (str "Quota exceeded.")].
Proof.
  destruct (failures_are_contained quotaExhausted (SessionConnect None) connectedBridge)
    as [C [_ [_ F]]].
  split; [exact C|]. split; [reflexivity|].
  apply (F (LiveConnect (str "gemini-live") None) (ErrorObject (str "Quota exceeded."))).
  - right. right. left. reflexivity.
  - reflexivity.
Defined.

(** C6: for a message other than [session.connect], [session.disconnect]
    and [ping], when no session is open, [handleClientMessage] sends the
    one [live.error] "No active Live session. Click connect first.", makes
    no call on the external provider, and leaves the bridge as it was. *)
Theorem no_active_session_guard (ext : External) (message : ClientSocketMessage)
          (b : LiveSessionBridge) :
  requiresSession message = true ->
  session b = None ->
  handleClientMessage ext message b = (b, [Sent (LiveError noActiveSession)], Normal tt)
  /\ externalCalls (traceOf (handleClientMessage ext message b)) = []
  /\ liveErrors (traceOf (handleClientMessage ext message b)) = [LiveError noActiveSession].
Proof.
  intros R S. destruct b as [key name s]. simpl in S. subst s.
  destruct message; try discriminate; repeat split.
Qed.

Definition idleBridge : LiveSessionBridge :=
  {| apiKey := str "key"; model := str "gemini-live"; session := None |}.

Lemma no_active_session_guard_witness :
  handleClientMessage quotaExhausted (VideoFrame (str "AAAA") (str "image/jpeg")) idleBridge
  = (idleBridge, [Sent (LiveError noActiveSession)], Normal tt)
  /\ externalCalls (traceOf (handleClientMessage quotaExhausted
                               (VideoFrame (str "AAAA") (str "image/jpeg")) idleBridge)) = []
  /\ liveErrors (traceOf (handleClientMessage quotaExhausted
                            (VideoFrame (str "AAAA") (str "image/jpeg")) idleBridge))
     = [LiveError noActiveSession].
Proof.
  exact (no_active_session_guard quotaExhausted (VideoFrame (str "AAAA") (str "image/jpeg"))
           idleBridge eq_refl eq_refl).
Defined.

End Bridge.


(* ------------------------------------------------------------------ *)
(** ** More on the transcript: normal forms and repeated commits *)

Module TranscriptFacts.
Import JS Transcript.

(** [collapsed inRun s]: every whitespace code unit of [s] is a space that
    does not follow another whitespace code unit ([inRun] tells whether the
    code unit before [s] was whitespace). *)
Fixpoint collapsed (inRun : bool) (s : jsstring) : bool :=
  match s with
  | [] => true
  | c :: r =>
      if isWhiteSpace c
      then negb inRun && N.eqb c space && collapsed true r
      else collapsed false r
  end.

(** [edgeFree s]: [s] neither starts nor ends with whitespace. *)
Definition startsClean (s : jsstring) : bool :=
  match s with
  | [] => true
  | c :: _ => negb (isWhiteSpace c)
  end.

Definition edgeFree (s : jsstring) : bool := startsClean s && startsClean (rev s).

Lemma collapsed_replaceRuns s : forall b, collapsed b (replaceRuns b s) = true.
Proof.
  induction s as [|c r IH]; intros b; simpl; [reflexivity|].
  destruct (isWhiteSpace c) eqn:W.
  - destruct b; simpl; [apply IH|].
    change (isWhiteSpace space) with true. simpl. apply IH.
  - simpl. rewrite W. apply IH.
Qed.

Lemma replaceRuns_fixed s : forall b, collapsed b s = true -> replaceRuns b s = s.
Proof.
  induction s as [|c r IH]; intros b H; simpl in *; [reflexivity|].
  destruct (isWhiteSpace c).
  - apply andb_true_iff in H. destruct H as [H H3].
    apply andb_true_iff in H. destruct H as [H1 H2].
    apply negb_true_iff in H1. apply N.eqb_eq in H2. subst.
    now rewrite (IH true H3).
  - now rewrite (IH false H).
Qed.

Lemma collapsed_dropWhile s : forall b b',
  collapsed b s = true -> collapsed b' (dropWhile isWhiteSpace s) = true.
Proof.
  induction s as [|c r IH]; intros b b' H; simpl in *; [reflexivity|].
  destruct (isWhiteSpace c) eqn:W.
  - apply andb_true_iff in H. destruct H as [_ H]. now apply (IH true).
  - simpl. now rewrite W.
Qed.

Lemma collapsed_app_l s1 : forall b s2,
  collapsed b (s1 ++ s2) = true -> collapsed b s1 = true.
Proof.
  induction s1 as [|c r IH]; intros b s2 H; simpl in *; [reflexivity|].
  destruct (isWhiteSpace c).
  - apply andb_true_iff in H. destruct H as [H H3]. rewrite H. simpl.
    now apply (IH true s2).
  - now apply (IH false s2).
Qed.

Lemma dropWhile_split {A} (p : A -> bool) l :
  exists dropped, l = dropped ++ dropWhile p l.
Proof.
  induction l as [|x r [d IH]]; simpl.
  - now exists [].
  - destruct (p x).
    + exists (x :: d). simpl. now f_equal.
    + now exists [].
Qed.

Lemma startsClean_dropWhile s : startsClean (dropWhile isWhiteSpace s) = true.
Proof.
  induction s as [|c r IH]; simpl; [reflexivity|].
  destruct (isWhiteSpace c) eqn:W; [exact IH|]. simpl. now rewrite W.
Qed.

Lemma dropWhile_clean s : startsClean s = true -> dropWhile isWhiteSpace s = s.
Proof.
  destruct s as [|c r]; simpl; [reflexivity|].
  intros H. apply negb_true_iff in H. now rewrite H.
Qed.

(** What is cut from the end of [s] is a suffix of [s]. *)
Lemma trimEnd_split s : exists cut, s = trimEnd s ++ cut.
Proof.
  unfold trimEnd. destruct (dropWhile_split isWhiteSpace (rev s)) as [d E].
  exists (rev d). rewrite <- rev_app_distr, <- E. now rewrite rev_involutive.
Qed.

Lemma startsClean_app s t : s <> [] -> startsClean (s ++ t) = startsClean s.
Proof. destruct s; [congruence | reflexivity]. Qed.

Lemma trim_edgeFree s : edgeFree (trim s) = true.
Proof.
  unfold edgeFree, trim. apply andb_true_iff. split.
  - destruct (trimEnd_split (trimStart s)) as [cut E].
    destruct (trimEnd (trimStart s)) as [|c r] eqn:T; [reflexivity|].
    pose proof (startsClean_dropWhile s) as H. fold (trimStart s) in H.
    rewrite E in H. exact H.
  - unfold trimEnd. rewrite rev_involutive. apply startsClean_dropWhile.
Qed.

Lemma edgeFree_trim_fixed s : edgeFree s = true -> trim s = s.
Proof.
  unfold edgeFree, trim, trimEnd, trimStart. intros H.
  apply andb_true_iff in H. destruct H as [H1 H2].
  rewrite (dropWhile_clean s H1), (dropWhile_clean (rev s) H2).
  apply rev_involutive.
Qed.

Lemma normalize_collapsed s : collapsed false (normalizeTranscriptText s) = true.
Proof.
  unfold normalizeTranscriptText, collapseWhitespace, trim.
  destruct (trimEnd_split (trimStart (replaceRuns false s))) as [cut E].
  apply (collapsed_app_l _ false cut). rewrite <- E.
  apply (collapsed_dropWhile _ false false). apply collapsed_replaceRuns.
Qed.

Lemma normalize_idempotent value :
  normalizeTranscriptText (normalizeTranscriptText value) = normalizeTranscriptText value.
Proof.
  unfold normalizeTranscriptText at 1. unfold collapseWhitespace.
  rewrite (replaceRuns_fixed _ false (normalize_collapsed value)).
  apply edgeFree_trim_fixed. apply trim_edgeFree.
Qed.

(** X1: [normalizeTranscriptText] yields a normal form: the result has no
    whitespace at either end, its only whitespace is single spaces between
    other code units, and normalizing it again changes nothing. *)
Theorem normalizeTranscriptText_normal_form (value : jsstring) :
  edgeFree (normalizeTranscriptText value) = true
  /\ collapsed false (normalizeTranscriptText value) = true
  /\ normalizeTranscriptText (normalizeTranscriptText value)
     = normalizeTranscriptText value.
Proof.
  split; [apply trim_edgeFree|].
  split; [apply normalize_collapsed | apply normalize_idempotent].
Qed.

Example normalize_sample :
  normalizeTranscriptText [9; 72; 105; 10; 13; 160; 116; 104; 101; 114; 101; 32]%N
  = str "Hi there".
Proof. reflexivity. Qed.

Lemma lastOf_snoc {A} (l : list A) x : lastOf (l ++ [x]) = Some x.
Proof.
  unfold lastOf. rewrite length_app. simpl.
  replace (length l + 1 - 1)%nat with (length l) by lia.
  rewrite nth_error_app2 by lia. now rewrite Nat.sub_diag.
Qed.

Lemma appendEntry_drop_any_id i1 i2 entry previous :
  appendEntry i1 entry previous = previous -> appendEntry i2 entry previous = previous.
Proof.
  unfold appendEntry.
  destruct (negb (truthy (normalizeTranscriptText (in_text entry)))); [reflexivity|].
  destruct (sameAsLast entry previous); [reflexivity|].
  destruct (Role_eqb (in_role entry) agent && alreadySeenRecentAgentReply entry previous);
    [reflexivity|].
  intros H. apply (f_equal (@length _)) in H. rewrite length_app in H. simpl in H. lia.
Qed.

(** X2: committing the same entry twice in a row is the same as committing
    it once, for every role and every log (so an updater that runs twice
    leaves one entry). *)
Theorem appendEntry_twice (i1 i2 : jsstring) (entry : EntryInput)
        (previous : list TranscriptEntry) :
  appendEntry i2 entry (appendEntry i1 entry previous) = appendEntry i1 entry previous.
Proof.
  destruct (appendEntry_cases i1 entry previous) as [E|[N E]].
  - rewrite E. now apply (appendEntry_drop_any_id i1).
  - rewrite E. unfold appendEntry.
    destruct (negb (truthy (normalizeTranscriptText (in_text entry)))); [reflexivity|].
    assert (S : sameAsLast entry
                  (previous ++ [ {| id := i1; role := in_role entry;
                                    text := normalizeTranscriptText (in_text entry) |} ])
                = true).
    { apply sameAsLast_true_iff. eexists. split; [apply lastOf_snoc|].
      split; [reflexivity|]. simpl.
      apply normalize_idempotent. }
    now rewrite S.
Qed.

End TranscriptFacts.


(* ------------------------------------------------------------------ *)
(** ** More on the client application *)

Module AppFacts.
Import JS Wire Transcript App.

Local Open Scope Z_scope.

#[local] Arguments appendEntry : simpl never.
#[local] Arguments normalizeTranscriptText : simpl never.
#[local] Arguments trim : simpl never.
#[local] Arguments str : simpl never.

(** *** The log only grows *)

Definition Grows (n : nat) (l l' : list TranscriptEntry) : Prop :=
  exists added, l' = l ++ added /\ (length added <= n)%nat.

Lemma grows_here n l : Grows n l l.
Proof. exists []. split; [now rewrite app_nil_r | simpl; lia]. Qed.

Lemma grows_commit n l l' newId entry :
  Grows n l l' -> Grows (S n) l (appendEntry newId entry l').
Proof.
  intros [added [E L]].
  destruct (appendEntry_cases newId entry l') as [C|[_ C]]; rewrite C.
  - exists added. split; [exact E | lia].
  - eexists (added ++ [_]). rewrite E, <- app_assoc. split; [reflexivity|].
    rewrite length_app. simpl. lia.
Qed.

Lemma grows_trans n m l1 l2 l3 :
  Grows n l1 l2 -> Grows m l2 l3 -> Grows (n + m) l1 l3.
Proof.
  intros [a [E1 L1]] [b [E2 L2]]. exists (a ++ b).
  rewrite E2, E1, <- app_assoc. split; [reflexivity|].
  rewrite length_app. lia.
Qed.

Ltac grows := repeat first [ apply grows_here | apply grows_commit ].

Lemma step_grows st e : Grows 2 (entries st) (entries (step st e)).
Proof.
  destruct e; cbn [step]; try destruct parsed;
    unfold onSocketMessage, onServerMessage, onMicStreamError,
      onCameraStreamError, onCameraFrame, onMicToggle, onSpeakResponsesToggle,
      onStartSession, onStopSession, onSendText, onInterrupt,
      autoObserveTick, requestVisionFeedback;
    unfold flushUserPartial, logEntry;
    cbn; split_branches; grows.
Qed.

(** X3: the transcript log is append-only.  Whatever the component
    handles (server messages, clicks, stream errors, timer firings), the
    entries it had stay in place, unchanged and in order, and each event
    adds at most two entries behind them. *)
Theorem log_is_append_only (trace : list Event) (st : State) :
  exists added,
    entries (run trace st) = entries st ++ added
    /\ (length added <= 2 * length trace)%nat.
Proof.
  revert st. induction trace as [|e trace IH]; intros st.
  - exists []. split; [now rewrite app_nil_r | simpl; lia].
  - destruct (grows_trans _ _ _ _ _ (step_grows st e) (IH (step st e)))
      as [added [E L]].
    exists added. split; [exact E|]. simpl length. lia.
Qed.

(** *** The agent accumulator *)

Lemma startsWith_prefix s : forall searchString,
  startsWith s searchString = true -> exists rest, s = searchString ++ rest.
Proof.
  induction s as [|c cs IH]; intros [|p ps] H; simpl in H; try discriminate.
  - now exists [].
  - now exists (c :: cs).
  - apply andb_true_iff in H. destruct H as [E H]. apply N.eqb_eq in E. subst.
    destruct (IH ps H) as [rest ->]. now exists rest.
Qed.

(** X4: an [agent.text.delta] never loses text: the accumulator it leaves
    starts with the accumulator it found and ends with the delta, whether
    the delta restates the text so far or continues it. *)
Theorem agent_delta_keeps_text (now : Z) (ids : IdSource) (text : jsstring)
        (st : State) :
  let st' := onServerMessage now ids (AgentTextDelta text) st in
  (exists appended, agentPartial st' = agentPartial st ++ appended)
  /\ (exists before, agentPartial st' = before ++ text)
  /\ entries st' = entries st.
Proof.
  destruct st as [a b c0 d e f g h i j partial l m n o p q]. cbn.
  destruct partial as [|c previous]; cbn.
  - repeat split; [now exists text | exists []; reflexivity].
  - destruct (startsWith text (c :: previous)) eqn:S.
    + apply startsWith_prefix in S. destruct S as [rest ->].
      repeat split; [now exists rest | now exists []].
    + repeat split; [now exists text | now exists (c :: previous)].
Qed.

(** *** Committing the user partial once *)

Lemma normalize_nil : normalizeTranscriptText [] = [].
Proof. reflexivity. Qed.

Lemma flush_of_empty_ref newId st : userPartialRef st = [] -> flushUserPartial newId st = st.
Proof. intros E. unfold flushUserPartial. now rewrite E, normalize_nil. Qed.

Lemma flush_cases newId st :
  flushUserPartial newId st = st
  \/ userPartialRef (flushUserPartial newId st) = [].
Proof.
  unfold flushUserPartial.
  destruct (negb (truthy (normalizeTranscriptText (userPartialRef st))));
    [now left | now right].
Qed.

Lemma flush_no_change_any_id i1 i2 st :
  flushUserPartial i1 st = st -> flushUserPartial i2 st = st.
Proof.
  destruct st as [a b c d e f g h i j k ref m n o p q].
  unfold flushUserPartial. cbn.
  destruct (negb (truthy (normalizeTranscriptText ref))) eqn:B; [reflexivity|].
  intros H. apply (f_equal userPartialRef) in H. cbn in H.
  assert (E : [] = ref) by exact H.
  rewrite <- E, normalize_nil in B. discriminate.
Qed.

(** X5: the user partial is committed once.  A second flush changes
    nothing; and after a finished, non-blank [user.transcript] the buffer is
    empty, so the flush that comes with turn completion, interruption or
    session close finds nothing to commit. *)
Theorem user_partial_committed_once (now : Z) (ids : IdSource) (i1 i2 : jsstring)
        (text : jsstring) (st : State) :
  flushUserPartial i2 (flushUserPartial i1 st) = flushUserPartial i1 st
  /\ (truthy (trim text) = true ->
      userPartialRef (onServerMessage now ids (UserTranscript text true) st) = []
      /\ flushUserPartial i1 (onServerMessage now ids (UserTranscript text true) st)
         = onServerMessage now ids (UserTranscript text true) st).
Proof.
  split.
  - destruct (flush_cases i1 st) as [E|E].
    + rewrite E. now apply (flush_no_change_any_id i1).
    + now apply flush_of_empty_ref.
  - intros T.
    assert (E : userPartialRef (onServerMessage now ids (UserTranscript text true) st) = []).
    { cbn. rewrite T. reflexivity. }
    split; [exact E | now apply flush_of_empty_ref].
Qed.

Lemma user_partial_committed_once_witness :
  userPartialRef (onServerMessage 5000 demoIds (UserTranscript (str "hello there") true) initial)
  = []
  /\ flushUserPartial (str "id2")
       (onServerMessage 5000 demoIds (UserTranscript (str "hello there") true) initial)
     = onServerMessage 5000 demoIds (UserTranscript (str "hello there") true) initial.
Proof.
  apply (proj2 (user_partial_committed_once 5000 demoIds (str "id2") (str "id3")
                  (str "hello there") initial)).
  reflexivity.
Defined.

(** *** User activity and the auto-observe interval *)

(** The events that count as user activity, with the conditions under
    which each handler writes [lastUserActivityAtRef], and the time
    written. *)
Definition stampedBy (st : State) (e : Event) : option Z :=
  match e with
  | MicToggle now _ => Some now
  | InterruptClick now => Some now
  | SendTextClick now _ =>
      if truthy (trim (draftText st)) then Some now else None
  | RequestVisionFeedbackClick now _ =>
      if liveInputEnabled st && cameraEnabled st then Some now else None
  | StartSessionClick likelyLive now _ =>
      if truthy (modelLabel st) && negb likelyLive then None else Some now
  | SocketMessage now _ (UserTranscript text _) =>
      if truthy (trim text) then Some now else None
  | SocketMessage now _ (SessionConnected _) => Some now
  | _ => None
  end.

Lemma silence_guard tickNow requestNow ids st :
  tickNow - lastUserActivityAtRef st < userSilenceThresholdMs ->
  autoObserveTick tickNow requestNow ids st = st.
Proof.
  intros H. unfold autoObserveTick.
  destruct (negb (autoObserveActive st)); [reflexivity|].
  apply Z.ltb_lt in H. now rewrite H.
Qed.

Lemma stampedBy_stamps st e now :
  stampedBy st e = Some now -> lastUserActivityAtRef (step st e) = now.
Proof.
  destruct st as [a b c d e0 f g h i j k l m n o p q].
  destruct e; cbn [stampedBy step]; try discriminate; try destruct parsed;
    try discriminate;
    unfold onSocketMessage, onServerMessage, onMicToggle, onStartSession,
      onSendText, requestVisionFeedback, onInterrupt, liveInputEnabled;
    unfold flushUserPartial, logEntry; cbn;
    split_branches; cbn; intros H; try discriminate; congruence.
Qed.

(** X6: user activity defers auto-observe.  After a microphone toggle, an
    interrupt, a text send with a non-blank draft, a manual frame analysis
    that goes out, a session start that proceeds, a non-blank user
    transcript or a session connect handled at time [now], the interval does
    nothing as long as its clock reads less than [now] plus the silence
    threshold. *)
Theorem user_activity_defers_auto_observe (st : State) (e : Event) (now : Z)
        (tickNow requestNow : Z) (ids : IdSource) :
  stampedBy st e = Some now ->
  tickNow - now < userSilenceThresholdMs ->
  lastUserActivityAtRef (step st e) = now
  /\ autoObserveTick tickNow requestNow ids (step st e) = step st e.
Proof.
  intros S T. pose proof (stampedBy_stamps st e now S) as L.
  split; [exact L|]. apply silence_guard. now rewrite L.
Qed.

(** A state in which auto-observe is armed: connected, camera on, the model
    waiting, a frame captured at 15 s, the user silent since 1 s. *)
Definition armed : State :=
  run [ SocketMessage 1000 demoIds (SessionConnected None);
        CameraToggle true;
        CameraFrame 15000 (str "AAAA") (str "image/jpeg");
        SocketMessage 15500 demoIds (LiveWaitingInput true) ] initial.

Lemma user_activity_defers_auto_observe_witness :
  lastUserActivityAtRef (step armed (InterruptClick 16000)) = 16000
  /\ autoObserveTick 23999 23999 demoIds (step armed (InterruptClick 16000))
     = step armed (InterruptClick 16000).
Proof.
  apply (user_activity_defers_auto_observe armed (InterruptClick 16000) 16000
           23999 23999 demoIds).
  - reflexivity.
  - reflexivity.
Defined.

(** X7: when auto-observe is active, the user has been silent for the
    threshold, the cooldown has run out and the last frame is fresh, a firing
    of the interval sends the auto-observe prompt as one complete text turn
    and stamps the request time; it adds nothing to the transcript and does
    not count as user activity; and any firing before the cooldown has run
    out again does nothing. *)
Theorem auto_observe_fires_then_cools_down (st : State)
        (tickNow requestNow : Z) (ids : IdSource) :
  autoObserveActive st = true ->
  userSilenceThresholdMs <= tickNow - lastUserActivityAtRef st ->
  autoFeedbackCooldownMs <= requestNow - lastVisionFeedbackRequestAtRef st ->
  requestNow - lastFrameCaptureAtRef st <= autoFeedbackFrameFreshnessMs ->
  let st' := autoObserveTick tickNow requestNow ids st in
  actions st' = actions st ++ [SendTextTurn autoVisionPrompt true]
  /\ lastVisionFeedbackRequestAtRef st' = requestNow
  /\ entries st' = entries st
  /\ lastUserActivityAtRef st' = lastUserActivityAtRef st
  /\ (forall laterTick laterRequest laterIds,
        laterRequest - requestNow < autoFeedbackCooldownMs ->
        autoObserveTick laterTick laterRequest laterIds st' = st').
Proof.
  intros A S C F st'.
  assert (E : st' = perform (SendTextTurn autoVisionPrompt true)
                      (setLastVisionFeedbackRequestAt requestNow st)).
  { unfold st', autoObserveTick, requestVisionFeedback. rewrite A. cbn [negb].
    apply Z.ltb_ge in S. rewrite S.
    unfold autoObserveActive in A.
    apply andb_true_iff in A. destruct A as [A _].
    apply andb_true_iff in A. destruct A as [A Cam].
    apply andb_true_iff in A. destruct A as [_ Live].
    rewrite Live, Cam. cbn [negb orb isAuto andb].
    apply Z.ltb_ge in C. rewrite C.
    assert (G : (requestNow - lastFrameCaptureAtRef st >? autoFeedbackFrameFreshnessMs)
                = false).
    { rewrite Z.gtb_ltb. apply Z.ltb_ge. exact F. }
    now rewrite G. }
  rewrite E. repeat split.
  intros laterTick laterRequest laterIds L.
  unfold autoObserveTick.
  destruct (negb (autoObserveActive _)); [reflexivity|].
  destruct (_ <? userSilenceThresholdMs); [reflexivity|].
  apply requestVisionFeedback_auto_guarded. left. exact L.
Qed.

Lemma auto_observe_fires_then_cools_down_witness :
  actions (autoObserveTick 19000 19000 demoIds armed)
  = actions armed ++ [SendTextTurn autoVisionPrompt true]
  /\ lastVisionFeedbackRequestAtRef (autoObserveTick 19000 19000 demoIds armed) = 19000
  /\ entries (autoObserveTick 19000 19000 demoIds armed) = entries armed
  /\ lastUserActivityAtRef (autoObserveTick 19000 19000 demoIds armed)
     = lastUserActivityAtRef armed
  /\ autoObserveTick 36999 36999 demoIds (autoObserveTick 19000 19000 demoIds armed)
     = autoObserveTick 19000 19000 demoIds armed.
Proof.
  destruct (auto_observe_fires_then_cools_down armed 19000 19000 demoIds)
    as [A [B [C [D E]]]]; try reflexivity; try (vm_compute; discriminate).
  split; [exact A|]. split; [exact B|]. split; [exact C|]. split; [exact D|].
  apply E. reflexivity.
Defined.

(** X8: a [session.closed] message shuts the inputs.  Microphone and camera
    are switched off, both partials and the three timestamps are cleared,
    the connection shows disconnected, and the playback is stopped last;
    from then on frame analysis requests and interval firings do nothing
    (until the camera is enabled again in a new session). *)
Theorem session_closed_shuts_inputs (now : Z) (ids : IdSource)
        (reason : option jsstring) (st : State) :
  let st' := onSocketMessage now ids (SessionClosed reason) st in
  micEnabled st' = false /\ cameraEnabled st' = false
  /\ connectionState st' = disconnected
  /\ userPartial st' = [] /\ agentPartial st' = []
  /\ lastFrameCaptureAtRef st' = 0
  /\ lastVisionFeedbackRequestAtRef st' = 0
  /\ lastUserActivityAtRef st' = 0
  /\ actions st' = actions st ++ [StopAgentAudioPlayback]
  /\ (forall mode t otherIds, requestVisionFeedback mode t otherIds st' = st')
  /\ (forall tickNow requestNow otherIds,
        autoObserveTick tickNow requestNow otherIds st' = st').
Proof.
  destruct st as [a b c d e f g h i j k l m n o p q].
  unfold onSocketMessage, onServerMessage, flushUserPartial, logEntry,
    resetActivityClock. cbn.
  destruct (negb (truthy (normalizeTranscriptText l))); cbn;
    repeat split;
    intros; unfold autoObserveTick, autoObserveActive, requestVisionFeedback,
      liveInputEnabled; cbn; rewrite ?andb_false_r; reflexivity.
Qed.

End AppFacts.


(* ------------------------------------------------------------------ *)
(** ** More on the session bridge: connect, disconnect, session events *)

Module BridgeFacts.
Import JS Wire Bridge.

#[local] Arguments str : simpl never.
#[local] Arguments trim : simpl never.

(** *** Events of the external session *)

(** [part.inlineData] *)
Record InlineData := {
  inlineMimeType : option jsstring;
  inlineBytes : option jsstring
}.

Record Part := {
  inlineData : option InlineData
}.

Record Transcription := {
  transcriptText : option jsstring;
  transcriptFinished : option bool
}.

(** [message.serverContent]; [modelTurnParts] is
    [serverContent.modelTurn?.parts]. *)
Record ServerContent := {
  modelTurnParts : option (list Part);
  inputTranscription : option Transcription;
  outputTranscription : option Transcription;
  interrupted : option bool;
  turnComplete : option bool;
  waitingForInput : option bool
}.

(** A [LiveServerMessage]: [setupComplete] holds the optional session id
    when the field is present; [legacyText] is [message.text]. *)
Record LiveServerMessage := {
  setupComplete : option (option jsstring);
  serverContent : option ServerContent;
  legacyText : option jsstring
}.

(** [s && s.trim().length > 0] *)
Definition nonBlank (s : option jsstring) : bool :=
  match s with
  | Some v => truthy v && (0 <? List.length (trim v))%nat
  | None => false
  end.

Definition orEmpty (s : option jsstring) : jsstring :=
  match s with Some v => v | None => [] end.

Definition isTrue (b : option bool) : bool :=
  match b with Some true => true | _ => false end.

Section WithPlatform.

(** [String.prototype.toLowerCase] of the platform. *)
Variable toLowerCase : jsstring -> jsstring.

(** The body of the loop over the parts of the model turn. *)
Definition audioOf (part : Part) : list ServerSocketMessage :=
  let mimeType := match inlineData part with
                  | Some inline => orEmpty (inlineMimeType inline)
                  | None => []
                  end in
  let data := match inlineData part with
              | Some inline => inlineBytes inline
              | None => None
              end in
  match data with
  | Some bytes =>
      if truthy bytes && App.startsWith (toLowerCase mimeType) (str "audio/")
      then [AgentAudioChunk bytes mimeType] else []
  | None => []
  end.

(** [handleServerMessage]: the messages handed to [send], in order. *)
Definition handleServerMessage (message : LiveServerMessage)
  : list ServerSocketMessage :=
  let content := serverContent message in
  let field {A} (get : ServerContent -> option A) : option A :=
    match content with Some c => get c | None => None end in
  match setupComplete message with
  | Some sessionId => [SessionConnected sessionId]
  | None => []
  end
  ++ flat_map audioOf
       match field modelTurnParts with Some parts => parts | None => [] end
  ++ match field inputTranscription with
     | Some input =>
         if truthy (orEmpty (transcriptText input))
         then [UserTranscript (orEmpty (transcriptText input))
                 (isTrue (transcriptFinished input))]
         else []
     | None => []
     end
  ++ (let outputTranscriptText :=
        match field outputTranscription with
        | Some output => transcriptText output
        | None => None
        end in
      if nonBlank outputTranscriptText
      then [AgentTextDelta (orEmpty outputTranscriptText)]
      else if nonBlank (legacyText message)
      then [AgentTextDelta (orEmpty (legacyText message))]
      else [])
  ++ (if isTrue (field interrupted) then [LiveInterrupted] else [])
  ++ (if isTrue (field turnComplete) then [AgentTurnComplete] else [])
  ++ match field waitingForInput with
     | Some waiting => [LiveWaitingInput waiting]
     | None => []
     end.

End WithPlatform.

(** The [onerror] callback. *)
Definition onerror (eventMessage : option jsstring) : list ServerSocketMessage :=
  [LiveError (if truthy (orEmpty eventMessage) then orEmpty eventMessage
              else str "Gemini Live session error.")].

(** The [onclose] callback: the handle is dropped, the client is told. *)
Definition onclose (eventReason : option jsstring) (b : LiveSessionBridge)
  : LiveSessionBridge * list ServerSocketMessage :=
  (withSession None b,
   [SessionClosed (Some (if truthy (orEmpty eventReason) then orEmpty eventReason
                         else str "Live session closed."))]).

(** *** The order of the fan-out *)

Definition rank (m : ServerSocketMessage) : nat :=
  match m with
  | SessionConnected _ => 0
  | AgentAudioChunk _ _ => 1
  | UserTranscript _ _ => 2
  | AgentTextDelta _ => 3
  | LiveInterrupted => 4
  | AgentTurnComplete => 5
  | LiveWaitingInput _ => 6
  | ServerReady _ | SessionClosed _ | LiveError _ | Pong => 7
  end%nat.

(** [x] may come before [y]: a kind of lower rank, or two audio chunks. *)
Definition inOrder (x y : ServerSocketMessage) : Prop :=
  (rank x < rank y \/ (rank x = 1 /\ rank y = 1))%nat.

Definition Ordered (k : nat) (l : list ServerSocketMessage) : Prop :=
  StronglySorted inOrder l /\ Forall (fun x => k <= rank x <= 6)%nat l.

Lemma ordered_nil k : Ordered k [].
Proof. split; constructor. Qed.

Lemma ordered_weaken k k' l : (k <= k')%nat -> Ordered k' l -> Ordered k l.
Proof.
  intros L [S F]. split; [exact S|].
  eapply Forall_impl; [|exact F]. simpl. intros; lia.
Qed.

Lemma ordered_cons k x l :
  (k <= rank x <= 6)%nat -> Ordered (S (rank x)) l -> Ordered k (x :: l).
Proof.
  intros R [S F]. split.
  - constructor; [exact S|]. eapply Forall_impl; [|exact F].
    intros y Y. left. simpl in Y. lia.
  - constructor; [exact R|]. eapply Forall_impl; [|exact F]. simpl. intros; lia.
Qed.

Lemma ordered_opt k x (c : bool) l :
  (k <= rank x <= 6)%nat -> Ordered (S (rank x)) l ->
  Ordered k ((if c then [x] else []) ++ l).
Proof.
  intros R O. destruct c; simpl.
  - now apply ordered_cons.
  - apply (ordered_weaken k (S (rank x))); [lia | exact O].
Qed.

Lemma ordered_audio audio l :
  Forall (fun x => rank x = 1%nat) audio -> Ordered 2 l -> Ordered 1 (audio ++ l).
Proof.
  intros A O. induction A as [|x audio X A IH]; simpl.
  - apply (ordered_weaken 1 2); [lia | exact O].
  - destruct IH as [S F]. split.
    + constructor; [exact S|]. apply Forall_app. split.
      * eapply Forall_impl; [|exact A]. intros y Y. right. now split.
      * destruct O as [_ FO]. eapply Forall_impl; [|exact FO].
        intros y Y. left. simpl in Y. lia.
    + constructor; [lia | exact F].
Qed.

Lemma audioOf_rank toLowerCase parts :
  Forall (fun x => rank x = 1%nat) (flat_map (audioOf toLowerCase) parts).
Proof.
  induction parts as [|part parts IH]; simpl; [constructor|].
  apply Forall_app. split; [|exact IH].
  unfold audioOf. split_branches; repeat constructor.
Qed.

(** X9: whatever the session event holds, the fan-out keeps one order:
    [session.connected], then the audio chunks, then [user.transcript],
    [agent.text.delta], [live.interrupted], [agent.turn.complete] and
    [live.waiting-input]; each of these but the audio chunk occurs at most
    once, and nothing else ([server.ready], [session.closed], [live.error],
    [pong]) is ever sent. *)
Theorem fan_out_keeps_order (toLowerCase : jsstring -> jsstring)
        (message : LiveServerMessage) :
  StronglySorted inOrder (handleServerMessage toLowerCase message)
  /\ Forall (fun m => rank m <= 6)%nat (handleServerMessage toLowerCase message).
Proof.
  assert (O : Ordered 0 (handleServerMessage toLowerCase message)).
  { unfold handleServerMessage.
    destruct (setupComplete message) as [sessionId|].
    - apply ordered_cons; [simpl; lia|]. simpl rank.
      apply ordered_audio; [apply audioOf_rank|].
      split_branches;
        repeat first [ apply ordered_nil | apply ordered_cons; [simpl; lia|] ].
    - simpl app. apply (ordered_weaken 0 1); [lia|].
      apply ordered_audio; [apply audioOf_rank|].
      split_branches;
        repeat first [ apply ordered_nil | apply ordered_cons; [simpl; lia|] ]. }
  destruct O as [S F]. split; [exact S|].
  eapply Forall_impl; [|exact F]. simpl. intros; lia.
Qed.

(** *** An interrupted event, seen from the client *)

(** The client handles the messages of one fan-out, in order. *)
Definition deliver (now : Z) (ids : App.IdSource) (messages : list ServerSocketMessage)
           (st : App.State) : App.State :=
  fold_left (fun st m => App.onSocketMessage now ids m st) messages st.

#[local] Arguments Transcript.appendEntry : simpl never.
#[local] Arguments Transcript.normalizeTranscriptText : simpl never.

Lemma tail_keeps_actions now ids (turn : bool) (waiting : option bool) st :
  App.actions
    (deliver now ids
       ((if turn then [AgentTurnComplete] else [])
        ++ match waiting with
           | Some w => [LiveWaitingInput w]
           | None => []
           end) st)
  = App.actions st.
Proof.
  unfold deliver. destruct turn; destruct waiting; cbn;
    unfold App.flushUserPartial, App.logEntry; cbn; split_branches; reflexivity.
Qed.

Lemma deliver_app now ids l1 l2 st :
  deliver now ids (l1 ++ l2) st = deliver now ids l2 (deliver now ids l1 st).
Proof. unfold deliver. apply fold_left_app. Qed.

Lemma deliver_cons now ids m l st :
  deliver now ids (m :: l) st = deliver now ids l (App.onSocketMessage now ids m st).
Proof. reflexivity. Qed.

(** X10: when a session event is flagged interrupted, the client ends up
    with its playback stopped: whatever audio the same event carried is
    enqueued before the stop, and nothing is played after it. *)
Theorem interrupted_event_stops_playback (toLowerCase : jsstring -> jsstring)
        (message : LiveServerMessage) (content : ServerContent)
        (now : Z) (ids : App.IdSource) (st : App.State) :
  serverContent message = Some content ->
  interrupted content = Some true ->
  exists before,
    App.actions (deliver now ids (handleServerMessage toLowerCase message) st)
    = before ++ [App.StopAgentAudioPlayback].
Proof.
  intros C I. unfold handleServerMessage. cbv zeta. rewrite C. cbv beta iota.
  rewrite I. cbn [isTrue].
  do 4 rewrite deliver_app. change ([LiveInterrupted] ++ ?l) with (LiveInterrupted :: l).
  rewrite deliver_cons, tail_keeps_actions.
  eexists. unfold App.onSocketMessage, App.onServerMessage.
  cbn [App.actions App.perform]. reflexivity.
Qed.

Definition bargeIn : LiveServerMessage :=
  {| setupComplete := None;
     serverContent :=
       Some {| modelTurnParts :=
                 Some [ {| inlineData :=
                             Some {| inlineMimeType := Some (str "audio/pcm;rate=24000");
                                     inlineBytes := Some (str "AAAA") |} |} ];
               inputTranscription := None;
               outputTranscription := None;
               interrupted := Some true;
               turnComplete := Some true;
               waitingForInput := Some true |};
     legacyText := None |}.

Lemma interrupted_event_stops_playback_witness :
  exists before,
    App.actions (deliver 5000 App.demoIds (handleServerMessage (fun s => s) bargeIn)
                   App.initial)
    = before ++ [App.StopAgentAudioPlayback].
Proof.
  exact (interrupted_event_stops_playback (fun s => s) bargeIn _ 5000 App.demoIds
           App.initial eq_refl eq_refl).
Defined.

Example bargeIn_actions :
  handleServerMessage (fun s => s) bargeIn
  = [ AgentAudioChunk (str "AAAA") (str "audio/pcm;rate=24000");
      LiveInterrupted; AgentTurnComplete; LiveWaitingInput true ]
  /\ App.actions (deliver 5000 App.demoIds (handleServerMessage (fun s => s) bargeIn)
                    App.initial)
     = [ App.PlayAgentAudioChunk (str "AAAA") (str "audio/pcm;rate=24000");
         App.StopAgentAudioPlayback ].
Proof. split; reflexivity. Qed.

(** *** Connect and disconnect *)

Definition missingKey : jsstring :=
  str "GEMINI_API_KEY is missing in server environment.".

Ltac run_bridge :=
  unfold handleClientMessage, tryCatch, dispatch, connect, disconnect, bind,
    external, send, getSession, getApiKey, getModel, setSession, ret, withSession;
  cbn.

(** X11: without a credential, [session.connect] reports the
    configuration error and does nothing else: no call on the provider, and
    a session that is open stays open. *)
Theorem connect_without_key (ext : External) (systemInstruction : option jsstring)
        (b : LiveSessionBridge) :
  apiKey b = [] ->
  handleClientMessage ext (SessionConnect systemInstruction) b
  = (b, [Sent (LiveError missingKey)], Normal tt).
Proof.
  destruct b as [key name s]. simpl. intros ->. reflexivity.
Qed.

Lemma connect_without_key_witness :
  handleClientMessage quotaExhausted (SessionConnect None)
    {| apiKey := []; model := str "gemini-live"; session := Some 3%nat |}
  = ({| apiKey := []; model := str "gemini-live"; session := Some 3%nat |},
     [Sent (LiveError missingKey)], Normal tt).
Proof.
  exact (connect_without_key quotaExhausted None
           {| apiKey := []; model := str "gemini-live"; session := Some 3%nat |} eq_refl).
Defined.

(** The instruction attached to the connect call. *)
Definition attached (systemInstruction : option jsstring) : option jsstring :=
  match systemInstruction with
  | Some text => if blank text then None else Some text
  | None => None
  end.

Lemma attached_spec systemInstruction :
  match systemInstruction with
  | Some text => if truthy text && (0 <? List.length (trim text))%nat
                 then Some text else None
  | None => None
  end = attached systemInstruction.
Proof.
  destruct systemInstruction as [text|]; [|reflexivity]. simpl.
  destruct (blank text) eqn:B.
  - apply trim_nil_iff in B. rewrite B. simpl. now rewrite andb_false_r.
  - destruct text as [|c r]; [discriminate|]. simpl truthy. simpl andb.
    destruct (trim (c :: r)) eqn:T; [|reflexivity].
    apply trim_nil_iff in T. congruence.
Qed.

(** X12: a connect that supersedes an open session closes it first.  If
    closing fails, nothing else is tried and the old handle is kept; if it
    succeeds the client is told [session.closed] ("Reconnecting session.")
    before the provider is asked for a new session, the handle is replaced
    only when the handshake succeeds, and otherwise no session is left.  The
    instruction is attached verbatim unless it is absent or blank. *)
Theorem connect_supersedes (ext : External) (systemInstruction : option jsstring)
        (b : LiveSessionBridge) (old : Session) :
  apiKey b <> [] ->
  session b = Some old ->
  let r := handleClientMessage ext (SessionConnect systemInstruction) b in
  let reconnect := [ Called (SessionClose old);
                     Sent (SessionClosed (Some (str "Reconnecting session."))) ] in
  let handshake := [ Called (NewGoogleGenAI (apiKey b));
                     Called (LiveConnect (model b) (attached systemInstruction)) ] in
  match outcome ext (SessionClose old) with
  | Some error =>
      r = (b, [Called (SessionClose old); Sent (LiveError (describe error))], Normal tt)
  | None =>
      match outcome ext (NewGoogleGenAI (apiKey b)),
            outcome ext (LiveConnect (model b) (attached systemInstruction)) with
      | None, None =>
          r = (withSession (Some (handle ext)) b, reconnect ++ handshake, Normal tt)
      | None, Some error =>
          r = (withSession None b,
               reconnect ++ handshake ++ [Sent (LiveError (describe error))], Normal tt)
      | Some error, _ =>
          r = (withSession None b,
               reconnect ++ [Called (NewGoogleGenAI (apiKey b));
                             Sent (LiveError (describe error))], Normal tt)
      end
  end.
Proof.
  destruct b as [key name s]. simpl. intros K ->.
  destruct key as [|k key]; [congruence|].
  run_bridge. rewrite attached_spec.
  destruct (outcome ext (SessionClose old)); cbn; [reflexivity|].
  destruct (outcome ext (NewGoogleGenAI (k :: key))); cbn; [reflexivity|].
  destruct (outcome ext (LiveConnect name (attached systemInstruction))); reflexivity.
Qed.

Lemma connect_supersedes_witness :
  handleClientMessage quotaExhausted (SessionConnect (Some (str "  "))) connectedBridge
  = (withSession None connectedBridge,
     [ Called (SessionClose 3%nat);
       Sent (SessionClosed (Some (str "Reconnecting session."))) ]
     ++ [ Called (NewGoogleGenAI (str "key"));
          Called (LiveConnect (str "gemini-live") None) ]
     ++ [Sent (LiveError (str "Quota exceeded."))],
     Normal tt).
Proof.
  assert (K : apiKey connectedBridge <> []) by discriminate.
  exact (connect_supersedes quotaExhausted (Some (str "  ")) connectedBridge 3%nat
           K eq_refl).
Defined.

(** X13: [disconnect] is idempotent and does not hide a failure.  With no
    session it does nothing.  When closing succeeds, the handle is dropped
    and the client is told once: a second [disconnect] adds nothing.  When
    closing throws, the exception leaves [disconnect], the handle is kept
    and the client is told nothing. *)
Theorem disconnect_once (ext : External) (reason again : option jsstring)
        (b : LiveSessionBridge) :
  match session b with
  | None => disconnect ext reason b = (b, [], Normal tt)
  | Some s =>
      match outcome ext (SessionClose s) with
      | None =>
          disconnect ext reason b
          = (withSession None b, [Called (SessionClose s); Sent (SessionClosed reason)],
             Normal tt)
          /\ bind (disconnect ext reason) (fun _ => disconnect ext again) b
             = disconnect ext reason b
      | Some error =>
          disconnect ext reason b = (b, [Called (SessionClose s)], Abrupt error)
      end
  end.
Proof.
  destruct b as [key name [s|]]; simpl; [|reflexivity].
  unfold disconnect, bind, external, send, getSession, setSession, ret, withSession.
  cbn. destruct (outcome ext (SessionClose s)); cbn; [reflexivity|].
  split; reflexivity.
Qed.

(** X14: when the external session closes on its own, the bridge drops
    the handle and tells the client, always with a reason.  From then on
    every message that needs a session is answered with the no-session
    error without any call on the provider, and a [session.connect] opens a
    new session without closing anything. *)
Theorem upstream_close_is_terminal (ext : External) (eventReason : option jsstring)
        (message : ClientSocketMessage) (systemInstruction : option jsstring)
        (b : LiveSessionBridge) :
  let b' := fst (onclose eventReason b) in
  (exists reason, snd (onclose eventReason b) = [SessionClosed (Some reason)]
                  /\ reason <> [])
  /\ session b' = None
  /\ (requiresSession message = true ->
      handleClientMessage ext message b'
      = (b', [Sent (LiveError noActiveSession)], Normal tt))
  /\ (apiKey b <> [] ->
      outcome ext (NewGoogleGenAI (apiKey b)) = None ->
      outcome ext (LiveConnect (model b) (attached systemInstruction)) = None ->
      handleClientMessage ext (SessionConnect systemInstruction) b'
      = (withSession (Some (handle ext)) b,
         [ Called (NewGoogleGenAI (apiKey b));
           Called (LiveConnect (model b) (attached systemInstruction)) ],
         Normal tt)).
Proof.
  destruct b as [key name s]. cbn. repeat split.
  - eexists. split; [reflexivity|].
    destruct eventReason as [[|c r]|]; cbn; discriminate.
  - intros R. destruct message; try discriminate; reflexivity.
  - intros K N C. destruct key as [|k key]; [congruence|].
    run_bridge. rewrite attached_spec, N. cbn. rewrite C. reflexivity.
Qed.

Definition allGood : External :=
  {| outcome := fun _ => None; handle := 9%nat |}.

Lemma upstream_close_is_terminal_witness :
  handleClientMessage allGood (AudioChunk (str "AAAA") (str "audio/pcm;rate=16000"))
    (fst (onclose None connectedBridge))
  = (fst (onclose None connectedBridge), [Sent (LiveError noActiveSession)], Normal tt)
  /\ handleClientMessage allGood (SessionConnect None) (fst (onclose None connectedBridge))
     = (withSession (Some 9%nat) connectedBridge,
        [ Called (NewGoogleGenAI (str "key"));
          Called (LiveConnect (str "gemini-live") None) ],
        Normal tt).
Proof.
  destruct (upstream_close_is_terminal allGood None
              (AudioChunk (str "AAAA") (str "audio/pcm;rate=16000")) None connectedBridge)
    as [_ [_ [Data Connect]]].
  split; [exact (Data eq_refl)|].
  apply Connect; [discriminate | reflexivity | reflexivity].
Defined.

End BridgeFacts.


(* ------------------------------------------------------------------ *)
(** ** The channel boundary: [parseClientMessage] and the socket handler *)

Module Channel.
Import JS Wire Bridge.

(** A value as [JSON.parse] returns it. *)
#[local] Unset Elimination Schemes.
Inductive JsonValue :=
  | JNull
  | JBool (b : bool)
  | JNumber (q : Q)
  | JString (s : jsstring)
  | JArray (items : list JsonValue)
  | JObject (fields : list (jsstring * JsonValue)).
#[local] Set Elimination Schemes.

Fixpoint lookup (key : jsstring) (fields : list (jsstring * JsonValue))
  : option JsonValue :=
  match fields with
  | [] => None
  | (k, v) :: rest => if eqb k key then Some v else lookup key rest
  end.

(** [parsed[key]] for the keys the parser reads; an array has none of
    them. *)
Definition get (key : string) (parsed : JsonValue) : option JsonValue :=
  match parsed with
  | JObject fields => lookup (str key) fields
  | _ => None
  end.

Definition isObject (value : JsonValue) : bool :=
  match value with
  | JObject _ | JArray _ => true
  | _ => false
  end.

Definition typeIs (t : jsstring) (tag : string) : bool := eqb t (str tag).

(** The part of [parseClientMessage] that follows [JSON.parse]. *)
Definition decode (parsed : JsonValue) : option ClientSocketMessage :=
  if negb (isObject parsed) then None
  else
    match get "type" parsed with
    | Some (JString t) =>
        if typeIs t "session.connect" then
          match get "systemInstruction" parsed with
          | None => Some (SessionConnect None)
          | Some (JString instruction) => Some (SessionConnect (Some instruction))
          | Some _ => None
          end
        else if typeIs t "session.disconnect" then Some SessionDisconnect
        else if typeIs t "text.turn" then
          match get "text" parsed with
          | Some (JString text) =>
              Some (TextTurn text
                      (Some match get "turnComplete" parsed with
                            | Some (JBool b) => b
                            | _ => true
                            end))
          | _ => None
          end
        else if typeIs t "audio.chunk" then
          match get "data" parsed, get "mimeType" parsed with
          | Some (JString data), Some (JString mimeType) =>
              Some (AudioChunk data mimeType)
          | _, _ => None
          end
        else if typeIs t "audio.end" then Some AudioEnd
        else if typeIs t "video.frame" then
          match get "data" parsed, get "mimeType" parsed with
          | Some (JString data), Some (JString mimeType) =>
              Some (VideoFrame data mimeType)
          | _, _ => None
          end
        else if typeIs t "activity.start" then Some ActivityStart
        else if typeIs t "activity.end" then Some ActivityEnd
        else if typeIs t "ping" then Some Ping
        else None
    | _ => None
    end.

(** [JSONparse raw] is [None] when [JSON.parse] throws. *)
Definition parseClientMessage (JSONparse : jsstring -> option JsonValue)
           (raw : jsstring) : option ClientSocketMessage :=
  match JSONparse raw with
  | None => None
  | Some parsed => decode parsed
  end.

Definition tagOf (message : ClientSocketMessage) : jsstring :=
  match message with
  | SessionConnect _ => str "session.connect"
  | SessionDisconnect => str "session.disconnect"
  | TextTurn _ _ => str "text.turn"
  | AudioChunk _ _ => str "audio.chunk"
  | AudioEnd => str "audio.end"
  | VideoFrame _ _ => str "video.frame"
  | ActivityStart => str "activity.start"
  | ActivityEnd => str "activity.end"
  | Ping => str "ping"
  end.

(** The object [JSON.stringify] writes for a client message: a field that
    is [undefined] is left out. *)
Definition toJson (message : ClientSocketMessage) : JsonValue :=
  JObject
    ((str "type", JString (tagOf message))
     :: match message with
        | SessionConnect (Some instruction) =>
            [(str "systemInstruction", JString instruction)]
        | TextTurn text turnComplete =>
            (str "text", JString text)
            :: match turnComplete with
               | Some b => [(str "turnComplete", JBool b)]
               | None => []
               end
        | AudioChunk data mimeType | VideoFrame data mimeType =>
            [(str "data", JString data); (str "mimeType", JString mimeType)]
        | _ => []
        end).

(** A text turn always leaves the parser with its completion flag. *)
Definition canonical (message : ClientSocketMessage) : ClientSocketMessage :=
  match message with
  | TextTurn text None => TextTurn text (Some true)
  | other => other
  end.

(** X15: every message of the client vocabulary crosses the channel
    boundary unchanged: parsing what the client wrote gives the message
    back, a text turn without a completion flag coming out as complete. *)
Theorem decode_toJson (message : ClientSocketMessage) :
  decode (toJson message) = Some (canonical message).
Proof.
  destruct message as [[i|]| |t [b|]|d m| |d m| | |]; reflexivity.
Qed.

Lemma typeIs_eq t tag : typeIs t tag = true -> t = str tag.
Proof. apply eqb_eq. Qed.

(** X16: the parser never retags a payload.  Whatever it accepts is an
    object whose [type] field is the tag of the message it returns; text,
    data and media type are the strings found in the payload. *)
Theorem decode_is_faithful (parsed : JsonValue) (message : ClientSocketMessage) :
  decode parsed = Some message ->
  get "type" parsed = Some (JString (tagOf message))
  /\ match message with
     | SessionConnect (Some instruction) =>
         get "systemInstruction" parsed = Some (JString instruction)
     | SessionConnect None => get "systemInstruction" parsed = None
     | TextTurn text flag =>
         get "text" parsed = Some (JString text) /\ flag <> None
     | AudioChunk data mimeType | VideoFrame data mimeType =>
         get "data" parsed = Some (JString data)
         /\ get "mimeType" parsed = Some (JString mimeType)
     | _ => True
     end.
Proof.
  unfold decode. destruct (negb (isObject parsed)); [discriminate|].
  destruct (get "type" parsed) as [[| | |t| |]|]; try discriminate.
  repeat match goal with
         | |- context [typeIs t ?tag] =>
             let E := fresh "E" in
             destruct (typeIs t tag) eqn:E;
             [apply typeIs_eq in E; subst t|]
         end;
    try discriminate;
    repeat match goal with
           | |- context [match get ?k parsed with _ => _ end] =>
               destruct (get k parsed) as [[| | | | |]|]
           end;
    intros H; inversion H; subst; simpl; repeat split; congruence.
Qed.

Lemma decode_is_faithful_witness :
  get "type" (toJson (AudioChunk (str "AAAA") (str "audio/pcm;rate=16000")))
  = Some (JString (str "audio.chunk"))
  /\ get "data" (toJson (AudioChunk (str "AAAA") (str "audio/pcm;rate=16000")))
     = Some (JString (str "AAAA"))
  /\ get "mimeType" (toJson (AudioChunk (str "AAAA") (str "audio/pcm;rate=16000")))
     = Some (JString (str "audio/pcm;rate=16000")).
Proof.
  exact (decode_is_faithful
           (toJson (AudioChunk (str "AAAA") (str "audio/pcm;rate=16000")))
           (AudioChunk (str "AAAA") (str "audio/pcm;rate=16000")) eq_refl).
Defined.

(** *** The socket's message handler *)

Definition invalidPayload : jsstring := str "Invalid websocket message payload.".

(** [socket.on('message', ...)] of the server, from the decoded text on. *)
Definition onMessage (ext : External) (JSONparse : jsstring -> option JsonValue)
           (messageText : jsstring) : M unit :=
  match parseClientMessage JSONparse messageText with
  | None => send (LiveError invalidPayload)
  | Some parsed => handleClientMessage ext parsed
  end.

#[local] Arguments str : simpl never.
#[local] Arguments trim : simpl never.

Lemma handleClientMessage_completes ext message b :
  completionOf (handleClientMessage ext message b) = Normal tt.
Proof.
  destruct b as [key name [s|]]; destruct message;
    unfold handleClientMessage, tryCatch, dispatch, connect, disconnect, bind,
      external, send, getSession, getApiKey, getModel, setSession, ret, completionOf;
    cbn; bridge_cases ext; reflexivity.
Qed.

(** X17: the channel survives every payload.  Whatever text arrives and
    whatever the provider does, the handler completes normally; a payload
    that does not parse, is not an object, has no string [type], has an
    unknown [type] or lacks a required string field is answered with the
    one invalid-payload error, without any call on the provider and without
    touching the bridge. *)
Theorem channel_survives_any_payload (ext : External)
        (JSONparse : jsstring -> option JsonValue) (messageText : jsstring)
        (b : LiveSessionBridge) :
  completionOf (onMessage ext JSONparse messageText b) = Normal tt
  /\ (parseClientMessage JSONparse messageText = None ->
      onMessage ext JSONparse messageText b
      = (b, [Sent (LiveError invalidPayload)], Normal tt)).
Proof.
  unfold onMessage. split.
  - destruct (parseClientMessage JSONparse messageText);
      [apply handleClientMessage_completes | reflexivity].
  - intros ->. reflexivity.
Qed.

(** A payload with a tag outside the vocabulary, and one with a missing
    field. *)
Example rejected_payloads :
  decode (JObject [(str "type", JString (str "session.reset"))]) = None
  /\ decode (JObject [(str "type", JString (str "audio.chunk"));
                      (str "data", JString (str "AAAA"))]) = None
  /\ decode (JArray [JString (str "ping")]) = None
  /\ decode (JString (str "ping")) = None.
Proof. repeat split. Qed.

Lemma channel_survives_any_payload_witness :
  onMessage quotaExhausted (fun _ => None) (str "not json") connectedBridge
  = (connectedBridge, [Sent (LiveError invalidPayload)], Normal tt).
Proof.
  apply (proj2 (channel_survives_any_payload quotaExhausted (fun _ => None)
                  (str "not json") connectedBridge)).
  reflexivity.
Defined.

End Channel.



(* ------------------------------------------------------------------ *)
(** ** PCM16 audio: the decoder of the playback hook, the encoder of the
    microphone hook *)

Module Codec.
Import JS.

Local Open Scope Z_scope.

(** [view.getInt16(index * 2, true)]: two bytes, little endian, signed. *)
Definition getInt16 (lo hi : byte) : Z :=
  let unsigned := Z.of_N (Byte.to_N lo) + 256 * Z.of_N (Byte.to_N hi) in
  if unsigned <? 32768 then unsigned else unsigned - 65536.

(** [pcm16ToFloat32]: one sample per complete pair of bytes (the loop runs
    to [floor(byteLength / 2)]), each [int16 / 32768]. *)
Fixpoint pcm16ToFloat32 (bytes : list byte) : list Q :=
  match bytes with
  | lo :: hi :: rest => (getInt16 lo hi # 32768) :: pcm16ToFloat32 rest
  | _ => []
  end.

(** [Math.max(-1, Math.min(1, x))] *)
Definition clamp (x : Q) : Q := Qmax (-1) (Qmin 1 x).

(** The integer part of a number, towards zero. *)
Definition truncate (q : Q) : Z := Z.quot (Qnum q) (Z.pos (Qden q)).

(** The conversion an [Int16Array] applies to the number it is given. *)
Definition toInt16 (q : Q) : Z := (truncate q + 32768) mod 65536 - 32768.

(** The loop of [float32ToBase64Pcm]: the contents of the [Int16Array]. *)
Definition Qltb (x y : Q) : bool := negb (Qle_bool y x).

(** The loop of [float32ToBase64Pcm]: the contents of the [Int16Array].
    Samples are finite numbers; products of a 24-bit significand with
    32767 or 32768 are exact in double precision. *)
Definition quantize (x : Q) : Z :=
  let clamped := clamp x in
  toInt16 (if Qltb clamped 0 then clamped * 32768 else clamped * 32767)%Q.

Definition float32ToPcm16 (input : list Q) : list Z := map quantize input.

Definition byteOf (n : Z) : byte :=
  match Byte.of_N (Z.to_N n) with
  | Some b => b
  | None => x00
  end.

(** The two bytes of an [Int16Array] element seen through
    [new Uint8Array(pcm.buffer)], on a little-endian platform. *)
Definition int16Bytes (value : Z) : list byte :=
  let unsigned := value mod 65536 in
  [byteOf (unsigned mod 256); byteOf (unsigned / 256)].

(** The bytes [float32ToBase64Pcm] hands to [btoa]. *)
Definition float32ToBytes (input : list Q) : list byte :=
  flat_map int16Bytes (float32ToPcm16 input).

Lemma byte_range b : 0 <= Z.of_N (Byte.to_N b) <= 255.
Proof. pose proof (Byte.to_N_bounded b). lia. Qed.

Lemma getInt16_range lo hi : -32768 <= getInt16 lo hi <= 32767.
Proof.
  unfold getInt16. pose proof (byte_range lo). pose proof (byte_range hi).
  destruct (Z.ltb_spec (Z.of_N (Byte.to_N lo) + 256 * Z.of_N (Byte.to_N hi)) 32768); lia.
Qed.

Lemma pcm16ToFloat32_length bytes :
  length (pcm16ToFloat32 bytes) = Nat.div2 (length bytes).
Proof.
  assert (G : forall n bytes, (length bytes <= n)%nat ->
              length (pcm16ToFloat32 bytes) = Nat.div2 (length bytes)).
  { induction n as [|n IH]; intros [|lo [|hi rest]] L; simpl in *; try reflexivity;
      try lia.
    f_equal. apply IH. lia. }
  now apply (G (length bytes)).
Qed.

Lemma pcm16ToFloat32_range bytes :
  Forall (fun sample => (-1 <= sample /\ sample < 1)%Q) (pcm16ToFloat32 bytes).
Proof.
  assert (G : forall n bytes, (length bytes <= n)%nat ->
              Forall (fun sample => (-1 <= sample /\ sample < 1)%Q)
                     (pcm16ToFloat32 bytes)).
  { induction n as [|n IH]; intros [|lo [|hi rest]] L; simpl in *;
      try constructor; try lia.
    - pose proof (getInt16_range lo hi). unfold Qle, Qlt. simpl. lia.
    - apply IH. lia. }
  now apply (G (length bytes)).
Qed.

Lemma byteOf_value n : 0 <= n <= 255 -> Z.of_N (Byte.to_N (byteOf n)) = n.
Proof.
  intros R. unfold byteOf.
  destruct (Byte.of_N (Z.to_N n)) as [b|] eqn:E.
  - apply Byte.to_of_N in E. rewrite E. lia.
  - exfalso. destruct (Byte.of_N_None_iff (Z.to_N n)) as [F _].
    specialize (F E). lia.
Qed.

(** Reading back the two bytes written for a value of the [Int16Array]. *)
Lemma getInt16_int16Bytes value lo hi :
  -32768 <= value <= 32767 ->
  int16Bytes value = [lo; hi] ->
  getInt16 lo hi = value.
Proof.
  intros R E. unfold int16Bytes in E. injection E as <- <-.
  unfold getInt16.
  pose proof (Z.mod_pos_bound value 65536 ltac:(lia)) as U.
  set (unsigned := value mod 65536) in *.
  pose proof (Z.mod_pos_bound unsigned 256 ltac:(lia)).
  assert (H256 : 0 <= unsigned / 256 <= 255)
    by (split; [apply Z.div_pos; lia
               | enough (unsigned / 256 < 256) by lia;
                 apply Z.div_lt_upper_bound; lia]).
  rewrite !byteOf_value by lia.
  pose proof (Z.div_mod unsigned 256 ltac:(lia)) as D.
  replace (unsigned mod 256 + 256 * (unsigned / 256)) with unsigned by lia.
  subst unsigned.
  destruct (Z.ltb_spec (value mod 65536) 32768) as [L|L].
  - destruct (Z_lt_le_dec value 0) as [N|N].
    + rewrite <- (Z.mod_add value 1 65536) in L by lia.
      rewrite Z.mod_small in L by lia. lia.
    + apply Z.mod_small. lia.
  - destruct (Z_lt_le_dec value 0) as [N|N].
    + rewrite <- (Z.mod_add value 1 65536) by lia.
      rewrite Z.mod_small by lia. lia.
    + rewrite Z.mod_small in L by lia. lia.
Qed.

Lemma clamp_range x : (-1 <= clamp x /\ clamp x <= 1)%Q.
Proof.
  unfold clamp. split.
  - apply Q.le_max_l.
  - apply Q.max_lub; [discriminate|]. apply Q.le_min_l.
Qed.

Lemma toInt16_small q :
  -32768 <= truncate q <= 32767 -> toInt16 q = truncate q.
Proof. intros R. unfold toInt16. rewrite Z.mod_small; lia. Qed.

(** Truncation of a scaled sample: the quotient and what it leaves. *)
Lemma truncate_scaled (c : Q) (k : positive) :
  truncate (c * (Z.pos k # 1)) = Z.quot (Qnum c * Z.pos k) (Z.pos (Qden c)).
Proof.
  unfold truncate. destruct c as [a d]. simpl.
  now rewrite Pos.mul_1_r.
Qed.

(** A clamped sample is quantized to a value of the 16-bit range, at most
    one step above and less than two steps below the sample. *)
Lemma quantize_spec x :
  -32768 <= quantize x <= 32767
  /\ (clamp x - (1 # 16384) < quantize x # 32768
      /\ quantize x # 32768 < clamp x + (1 # 32768))%Q.
Proof.
  unfold quantize. cbv zeta.
  destruct (clamp_range x) as [Lo Hi].
  set (c := clamp x) in *. clearbody c.
  unfold Qltb, Qle_bool. destruct c as [a d].
  unfold Qle in Lo, Hi. cbn [Qnum Qden] in *.
  destruct (Z.leb_spec (0 * Z.pos d) (a * 1)) as [P|N]; cbn [negb].
  - pose proof (truncate_scaled (a # d) 32767) as T. cbn [Qnum Qden] in T.
    assert (R : 0 <= Z.quot (a * 32767) (Z.pos d) <= 32767).
    { split.
      - apply Z.quot_pos; lia.
      - apply Z.quot_le_upper_bound; lia. }
    rewrite toInt16_small by (rewrite T; lia). rewrite T.
    pose proof (Z.mul_quot_le (a * 32767) (Z.pos d) ltac:(lia) ltac:(lia)).
    pose proof (Z.mul_succ_quot_gt (a * 32767) (Z.pos d) ltac:(lia) ltac:(lia)).
    set (t := Z.quot (a * 32767) (Z.pos d)) in *.
    split; [lia|]. unfold Qlt, Qminus, Qplus, Qopp. cbn [Qnum Qden].
    rewrite ?Pos2Z.inj_mul. nia.
  - pose proof (truncate_scaled (a # d) 32768) as T. cbn [Qnum Qden] in T.
    pose proof (Z.mul_quot_ge (a * 32768) (Z.pos d) ltac:(lia) ltac:(lia)).
    pose proof (Z.mul_pred_quot_lt (a * 32768) (Z.pos d) ltac:(lia) ltac:(lia)).
    assert (R : -32768 <= Z.quot (a * 32768) (Z.pos d) <= 0) by nia.
    rewrite toInt16_small by (rewrite T; lia). rewrite T.
    set (t := Z.quot (a * 32768) (Z.pos d)) in *.
    split; [lia|]. unfold Qlt, Qminus, Qplus, Qopp. cbn [Qnum Qden].
    rewrite ?Pos2Z.inj_mul. nia.
Qed.

(** X18: [pcm16ToFloat32] yields one sample per complete pair of bytes (a
    trailing odd byte is ignored), and every sample lies in [-1, 1). *)
Theorem pcm16ToFloat32_samples (bytes : list byte) :
  length (pcm16ToFloat32 bytes) = Nat.div2 (length bytes)
  /\ Forall (fun sample => (-1 <= sample /\ sample < 1)%Q) (pcm16ToFloat32 bytes).
Proof. split; [apply pcm16ToFloat32_length | apply pcm16ToFloat32_range]. Qed.

(** X19: what the microphone path encodes, the playback path decodes back
    (base64 decoding returning the bytes that were encoded): one sample per
    input sample, each less than 1/16384 below and less than 1/32768 above
    the input clamped to [-1, 1]. *)
Theorem pcm16_round_trip (input : list Q) :
  Forall2 (fun x sample =>
             (clamp x - (1 # 16384) < sample /\ sample < clamp x + (1 # 32768))%Q)
          input (pcm16ToFloat32 (float32ToBytes input)).
Proof.
  unfold float32ToBytes, float32ToPcm16.
  induction input as [|x rest IH]; [constructor|].
  destruct (quantize_spec x) as [R B].
  cbn [map flat_map].
  pose proof (getInt16_int16Bytes (quantize x)) as G.
  unfold int16Bytes in *. cbv zeta in *. cbn [app pcm16ToFloat32].
  rewrite (G _ _ R eq_refl).
  constructor; [exact B | exact IH].
Qed.

(** Samples outside [-1, 1] saturate instead of wrapping around. *)
Lemma quantize_saturates :
  map quantize [3; 1; 0; -1; -7 # 2]%Q = [32767; 32767; 0; -32768; -32768].
Proof. reflexivity. Qed.

End Codec.


(* ------------------------------------------------------------------ *)
(** ** More on the playback queue: the drain pass and the audio contexts *)

Module PlaybackFacts.
Import JS Playback.

Local Open Scope Q_scope.

(** The audio contexts that have been created and not closed. *)
Definition openAfter (open : list AudioContext) (x : AudioEffect) : list AudioContext :=
  match x with
  | CreateContext context => open ++ [context]
  | CloseContext context => remove Nat.eq_dec context open
  | StartSource _ _ _ => open
  end.

Definition openContexts (l : list AudioEffect) : list AudioContext :=
  fold_left openAfter l [].

Definition referenced (p : Player) : list AudioContext :=
  match contextRef p with
  | Some context => [context]
  | None => []
  end.

(** A drain pass is running exactly when it is suspended on a chunk; when
    none is running nothing is queued; the only open context is the one in
    [contextRef]. *)
Definition Settled (p : Player) : Prop :=
  (processingRef p = true <-> inFlight p <> None)
  /\ (processingRef p = false -> queueRef p = [])
  /\ openContexts (effects p) = referenced p.

Lemma openContexts_snoc l x : openContexts (l ++ [x]) = openAfter (openContexts l) x.
Proof. unfold openContexts. now rewrite fold_left_app. Qed.

Lemma initial_settled : Settled initial.
Proof. repeat split; try discriminate; intros H; now elim H. Qed.

#[local] Arguments openContexts : simpl never.

Ltac settle_goal :=
  unfold Settled, referenced; cbn;
  rewrite ?openContexts_snoc; cbn;
  repeat match goal with
         | H : openContexts _ = _ |- _ => rewrite H; clear H
         end; cbn;
  repeat match goal with
         | |- context [Nat.eq_dec ?a ?b] => destruct (Nat.eq_dec a b); [|congruence]
         end;
  repeat split; intros; try discriminate; try congruence; try tauto.

Lemma stop_settled p : Settled p -> Settled (stop p).
Proof.
  destruct p as [c q pr n i cr ef]. intros [A [B O]]. unfold referenced in O.
  cbn in A, B, O. unfold stop. cbn.
  destruct c; settle_goal.
Qed.

Lemma drain_settled p :
  processingRef p = true -> inFlight p = None ->
  openContexts (effects p) = referenced p ->
  Settled (drain p).
Proof.
  destruct p as [c q pr n i cr ef]. unfold referenced. cbn. intros -> -> O.
  unfold drain, ensureContext. cbn.
  destruct q, c; settle_goal.
Qed.

Lemma step_settled p e : Settled p -> Settled (step p e).
Proof.
  intros S. destruct e as [d m|o|]; cbn [step].
  - unfold enqueueChunk, processQueue.
    destruct (negb (truthy d) || negb (truthy m)); [exact S|].
    destruct p as [c q pr n i cr ef]. destruct S as [A [B O]].
    unfold referenced in O. cbn in A, B, O. cbn.
    destruct pr.
    + settle_goal.
    + apply drain_settled; cbn; try reflexivity; [|exact O].
      destruct i; [|reflexivity]. destruct A as [_ A]. now discriminate A.
  - unfold settle. destruct (inFlight p) as [[context chunk]|] eqn:I; [|exact S].
    destruct p as [c q pr n i cr ef]. destruct S as [A [B O]].
    unfold referenced in O. cbn in A, B, O, I. subst i.
    destruct o as [t b|].
    + apply drain_settled; cbn; try reflexivity.
      * apply A. discriminate.
      * rewrite openContexts_snoc. cbn. exact O.
    + unfold stop. cbn. destruct c; settle_goal.
  - now apply stop_settled.
Qed.

Lemma run_settled trace : forall p, Settled p -> Settled (run trace p).
Proof.
  induction trace as [|e trace IH]; intros p S; [exact S|].
  apply (IH (step p e)). now apply step_settled.
Qed.

(** X20: queued audio is never stranded.  After any sequence of
    [enqueueChunk] and [stop] calls and decode completions, a drain pass is
    marked as running exactly when it is suspended on a chunk, and whenever
    no pass is running the queue is empty. *)
Theorem queue_never_stranded (trace : list Event) :
  let p := run trace initial in
  (processingRef p = true <-> inFlight p <> None)
  /\ (processingRef p = false -> queueRef p = []).
Proof.
  destruct (run_settled trace initial initial_settled) as [A [B _]].
  split; assumption.
Qed.

(** X21: audio contexts do not leak.  After any sequence of events the
    contexts created and not yet closed are exactly the one held in
    [contextRef], if any; in particular after [stop()] none is open. *)
Theorem contexts_do_not_leak (trace : list Event) :
  let p := run trace initial in
  openContexts (effects p) = referenced p
  /\ openContexts (effects (stop p)) = [].
Proof.
  pose proof (run_settled trace initial initial_settled) as S.
  split; [apply S|].
  apply stop_settled in S. destruct S as [_ [_ O]]. rewrite O.
  unfold referenced, stop.
  destruct (run trace initial) as [c q pr n i cr ef]. cbn. now destruct c.
Qed.

(** X22: [stop()] does not cancel the chunk a drain pass is suspended on.
    When its decoding completes the chunk is still started, on the context
    the pass obtained before the stop, and the cursor that [stop()] had reset
    moves to the end of that chunk; the pass then ends, and no context is
    referenced. *)
Theorem stop_spares_chunk_in_flight (p : Player) (context : AudioContext)
          (chunk : QueuedAudioChunk) (now : Q) (buffer : AudioBuffer) :
  inFlight p = Some (context, chunk) ->
  let p' := step (step p Stop) (Settle (Decoded now buffer)) in
  effects p' = effects (stop p) ++ [StartSource context (Qmax (now + lookahead) 0) buffer]
  /\ nextPlayTimeRef p' = Qmax (now + lookahead) 0 + duration buffer
  /\ contextRef p' = None
  /\ processingRef p' = false
  /\ inFlight p' = None.
Proof.
  destruct p as [c q pr n i cr ef]. cbn. intros ->.
  unfold stop, settle, scheduleBuffer, drain. cbn.
  destruct c; cbn; repeat split.
Qed.

Lemma stop_spares_chunk_in_flight_witness :
  effects (step (step (run burst initial) Stop) (Settle (Decoded 1 fifthOfASecond)))
  = effects (stop (run burst initial))
    ++ [StartSource 0%nat (Qmax (1 + lookahead) 0) fifthOfASecond]
  /\ nextPlayTimeRef (step (step (run burst initial) Stop) (Settle (Decoded 1 fifthOfASecond)))
     = Qmax (1 + lookahead) 0 + duration fifthOfASecond
  /\ contextRef (step (step (run burst initial) Stop) (Settle (Decoded 1 fifthOfASecond)))
     = None
  /\ processingRef (step (step (run burst initial) Stop) (Settle (Decoded 1 fifthOfASecond)))
     = false
  /\ inFlight (step (step (run burst initial) Stop) (Settle (Decoded 1 fifthOfASecond)))
     = None.
Proof.
  exact (stop_spares_chunk_in_flight (run burst initial) 0%nat
           {| data := str "CCCC"; mimeType := str "audio/pcm;rate=24000" |}
           1 fifthOfASecond eq_refl).
Defined.

End PlaybackFacts.


(* ------------------------------------------------------------------ *)
(** ** More on the scene gate: the useful range of the threshold *)

Module SceneGateFacts.
Import JS SceneGate.

Local Open Scope Q_scope.














End SceneGateFacts.


(* ------------------------------------------------------------------ *)
(** ** The [.env] file of the server ([load-env-file.ts]) *)

Module EnvFile.
Import JS.

Local Open Scope Z_scope.

Definition equals : codeunit := 61%N.
Definition lineFeed : codeunit := 10%N.
Definition carriageReturn : codeunit := 13%N.

(** The class of single and double quote of the pattern. *)
Definition isQuote (c : codeunit) : bool := ((c =? 39) || (c =? 34))%N.

(** [value.replace(/^[quotes]|[quotes]$/g, empty)]: a quote at the start is
    removed, then a quote at the end of what is left. *)
Definition stripQuotes (value : jsstring) : jsstring :=
  let value := match value with
               | c :: rest => if isQuote c then rest else value
               | [] => []
               end in
  match rev value with
  | c :: rest => if isQuote c then rev rest else value
  | [] => []
  end.

Definition parseLine (line : jsstring) : option (jsstring * jsstring) :=
  let trimmed := trim line in
  if negb (truthy trimmed) || App.startsWith trimmed (str "#") then None
  else
    let separatorIndex := SceneGate.indexOf equals trimmed in
    if separatorIndex <=? 0 then None
    else
      let key := trim (firstn (Z.to_nat separatorIndex) trimmed) in
      let value :=
        stripQuotes (trim (skipn (Z.to_nat (separatorIndex + 1)) trimmed)) in
      if negb (truthy key) then None else Some (key, value).

(** [contents.split(/\r?\n/)] *)
Fixpoint splitLines (contents : jsstring) : list jsstring :=
  match contents with
  | [] => [[]]
  | c :: rest =>
      if N.eqb c lineFeed then [] :: splitLines rest
      else
        let continue :=
          match splitLines rest with
          | line :: lines => (c :: line) :: lines
          | [] => [[c]]
          end in
        if N.eqb c carriageReturn
        then match rest with
             | d :: rest' => if N.eqb d lineFeed then [] :: splitLines rest' else continue
             | [] => continue
             end
        else continue
  end.

(** [process.env], as far as the loader goes: the variables it owns, oldest
    first.  Reading a name it does not own falls through to its prototype. *)
Definition ProcessEnv := list (jsstring * jsstring).

Fixpoint own (key : jsstring) (env : ProcessEnv) : option jsstring :=
  match env with
  | [] => None
  | (name, value) :: rest => if eqb name key then Some value else own key rest
  end.

Fixpoint assign (key value : jsstring) (env : ProcessEnv) : ProcessEnv :=
  match env with
  | [] => [(key, value)]
  | (name, old) :: rest =>
      if eqb name key then (name, value) :: rest
      else (name, old) :: assign key value rest
  end.

Section WithPrototype.

(** The names the prototype of [process.env] answers. *)
Variable inherited : jsstring -> bool.

(** [process.env[key] === undefined] *)
Definition isUndefined (env : ProcessEnv) (key : jsstring) : bool :=
  match own key env with
  | Some _ => false
  | None => negb (inherited key)
  end.

Definition loadLine (env : ProcessEnv) (line : jsstring) : ProcessEnv :=
  match parseLine line with
  | None => env
  | Some (key, value) =>
      if isUndefined env key then assign key value env else env
  end.

(** [file] is the contents of the file, if it exists. *)
Definition loadEnvFile (file : option jsstring) (env : ProcessEnv) : ProcessEnv :=
  match file with
  | None => env
  | Some contents => fold_left loadLine (splitLines contents) env
  end.

End WithPrototype.

(** The value the first line defining [key] gives it. *)
Fixpoint firstDefinition (key : jsstring) (lines : list jsstring) : option jsstring :=
  match lines with
  | [] => None
  | line :: rest =>
      match parseLine line with
      | Some (name, value) => if eqb name key then Some value else firstDefinition key rest
      | None => firstDefinition key rest
      end
  end.

Lemma eqb_refl s : eqb s s = true.
Proof. now apply eqb_eq. Qed.

Lemma eqb_neq a b : a <> b -> eqb a b = false.
Proof.
  intros N. destruct (eqb a b) eqn:E; [|reflexivity].
  apply eqb_eq in E. contradiction.
Qed.

Lemma own_assign key value env name :
  own name (assign key value env) = if eqb key name then Some value else own name env.
Proof.
  induction env as [|[k v] rest IH]; simpl.
  - reflexivity.
  - destruct (eqb k key) eqn:K; simpl.
    + apply eqb_eq in K. subst k. now destruct (eqb key name).
    + rewrite IH. destruct (eqb k name) eqn:N; [|reflexivity].
      apply eqb_eq in N. subst k.
      destruct (eqb key name) eqn:S; [|reflexivity].
      apply eqb_eq in S. subst key. now rewrite eqb_refl in K.
Qed.

Lemma own_loadLines inherited lines : forall env key,
  own key (fold_left (loadLine inherited) lines env)
  = match own key env with
    | Some value => Some value
    | None => if inherited key then None else firstDefinition key lines
    end.
Proof.
  induction lines as [|line lines IH]; intros env key.
  - simpl. destruct (own key env); [reflexivity|]. now destruct (inherited key).
  - cbn [fold_left firstDefinition]. rewrite IH. unfold loadLine.
    destruct (parseLine line) as [[name value]|]; [|reflexivity].
    unfold isUndefined. cbv iota beta.
    destruct (eqb name key) eqn:E.
    + apply eqb_eq in E. subst name.
      destruct (own key env) as [v|] eqn:O; cbn [negb].
      * now rewrite O.
      * destruct (inherited key) eqn:I; cbn [negb].
        -- now rewrite O.
        -- now rewrite own_assign, eqb_refl.
    + destruct (own name env) as [v|]; [reflexivity|].
      destruct (inherited name); cbn [negb]; [reflexivity|].
      now rewrite own_assign, E.
Qed.

(** X24: what [loadEnvFile] leaves in [process.env].  A variable that was
    already set keeps its value whatever the file says; a name answered by
    the prototype is never set; any other name gets the value of the first
    line of the file that defines it, later definitions being ignored; and
    when there is no file nothing changes. *)
Theorem loadEnvFile_precedence (inherited : jsstring -> bool)
          (contents : jsstring) (env : ProcessEnv) (key : jsstring) :
  own key (loadEnvFile inherited (Some contents) env)
  = match own key env with
    | Some value => Some value
    | None => if inherited key then None
              else firstDefinition key (splitLines contents)
    end
  /\ loadEnvFile inherited None env = env.
Proof. split; [apply own_loadLines | reflexivity]. Qed.

(** *** Lines *)

Lemma indexOf_absent c s : ~ In c s -> SceneGate.indexOf c s = -1.
Proof.
  induction s as [|x r IH]; intros N; simpl; [reflexivity|].
  destruct (N.eqb_spec x c) as [->|_]; [elim N; now left|].
  rewrite IH; [reflexivity|]. intros I. apply N. now right.
Qed.

Lemma indexOf_app c a b :
  ~ In c a -> SceneGate.indexOf c (a ++ c :: b) = Z.of_nat (length a).
Proof.
  induction a as [|x r IH]; intros N.
  - simpl. now rewrite N.eqb_refl.
  - cbn [app SceneGate.indexOf length].
    destruct (N.eqb_spec x c) as [->|_]; [elim N; now left|].
    rewrite IH by (intros I; apply N; now right).
    pose proof (Nat2Z.is_nonneg (length r)). rewrite Nat2Z.inj_succ.
    destruct (Z.of_nat (length r)); lia.
Qed.

(** Where [indexOf] finds the code unit, nothing before it is that code
    unit. *)
Lemma indexOf_split c s :
  0 <= SceneGate.indexOf c s ->
  exists a b, s = a ++ c :: b /\ ~ In c a
              /\ SceneGate.indexOf c s = Z.of_nat (length a).
Proof.
  induction s as [|x r IH]; simpl; [lia|].
  destruct (N.eqb_spec x c) as [->|D].
  - intros _. exists [], r. repeat split. intros [].
  - intros P.
    assert (Q : 0 <= SceneGate.indexOf c r)
      by (destruct (SceneGate.indexOf c r); lia).
    destruct (IH Q) as [a [b [E [N L]]]].
    exists (x :: a), b. repeat split.
    + simpl. now rewrite <- E.
    + intros [F|F]; [now apply D | now apply N].
    + rewrite L. cbn [length].
      pose proof (Nat2Z.is_nonneg (length a)). rewrite Nat2Z.inj_succ.
      destruct (Z.of_nat (length a)); lia.
Qed.

Lemma firstn_length_app {A} (a b : list A) : firstn (length a) (a ++ b) = a.
Proof. induction a; simpl; [now destruct b | now f_equal]. Qed.

Lemma skipn_length_app {A} (a : list A) x b : skipn (length a + 1) (a ++ x :: b) = b.
Proof. induction a; simpl; [reflexivity | assumption]. Qed.

Lemma dropWhile_stop {A} (p : A -> bool) a c b :
  p c = false -> dropWhile p (a ++ c :: b) = dropWhile p a ++ c :: b.
Proof.
  intros S. induction a as [|x r IH]; simpl; [now rewrite S|].
  destruct (p x); [exact IH | reflexivity].
Qed.

Lemma dropWhile_blank {A} (p : A -> bool) a b :
  forallb p a = true -> dropWhile p (a ++ b) = dropWhile p b.
Proof.
  induction a as [|x r IH]; simpl; [reflexivity|].
  intros H. apply andb_true_iff in H. destruct H as [-> H]. now apply IH.
Qed.

(** Trimming stops at a code unit that is not whitespace. *)
Lemma trimEnd_stop a c b :
  isWhiteSpace c = false -> trimEnd (a ++ c :: b) = a ++ c :: trimEnd b.
Proof.
  intros S. unfold trimEnd.
  assert (E : rev (a ++ c :: b) = rev b ++ c :: rev a).
  { rewrite rev_app_distr. cbn [rev]. now rewrite <- app_assoc. }
  rewrite E, (dropWhile_stop _ _ _ _ S), rev_app_distr. cbn [rev].
  rewrite rev_involutive, <- app_assoc. reflexivity.
Qed.

Lemma trim_stop c b : isWhiteSpace c = false -> trim (c :: b) = c :: trimEnd b.
Proof.
  intros S. unfold trim, trimStart. cbn [dropWhile]. rewrite S.
  exact (trimEnd_stop [] c b S).
Qed.

Lemma trimEnd_blank p : blank p = true -> trimEnd p = [].
Proof.
  intros B. unfold trimEnd.
  assert (E : dropWhile isWhiteSpace (rev p) = []).
  { apply dropWhile_nil_iff. now rewrite forallb_rev. }
  now rewrite E.
Qed.

Lemma dropWhile_prefix {A} (p : A -> bool) l :
  exists dropped, l = dropped ++ dropWhile p l /\ forallb p dropped = true.
Proof.
  induction l as [|x r [d [E F]]]; simpl.
  - now exists [].
  - destruct (p x) eqn:X.
    + exists (x :: d). simpl. rewrite X, F. split; [now f_equal | reflexivity].
    + now exists [].
Qed.

(** Whitespace around a string does not survive [trim]. *)
Lemma trim_padded p s q :
  blank p = true -> blank q = true -> trim (p ++ s ++ q) = trim s.
Proof.
  intros P Q. unfold trim, trimStart.
  rewrite (dropWhile_blank _ p _ P).
  destruct (dropWhile_prefix isWhiteSpace s) as [d [E F]].
  destruct (dropWhile isWhiteSpace s) as [|c r] eqn:D.
  - rewrite app_nil_r in E. subst d.
    assert (B : dropWhile isWhiteSpace (s ++ q) = []).
    { apply dropWhile_nil_iff. rewrite forallb_app, F. exact Q. }
    now rewrite B.
  - assert (S : isWhiteSpace c = false).
    { pose proof (TranscriptFacts.startsClean_dropWhile s) as C.
      rewrite D in C. simpl in C. now apply negb_true_iff. }
    assert (B : dropWhile isWhiteSpace (s ++ q) = (c :: r) ++ q).
    { rewrite E, <- app_assoc, (dropWhile_blank _ d _ F). simpl. now rewrite S. }
    rewrite B. unfold trimEnd. rewrite rev_app_distr.
    rewrite dropWhile_blank; [reflexivity|]. now rewrite forallb_rev.
Qed.

Lemma trim_In x s : In x (trim s) -> In x s.
Proof.
  intros I. unfold trim in I.
  destruct (TranscriptFacts.trimEnd_split (trimStart s)) as [cut E].
  destruct (TranscriptFacts.dropWhile_split isWhiteSpace s) as [d F].
  rewrite F. apply in_or_app. right. fold (trimStart s). rewrite E.
  apply in_or_app. now left.
Qed.

Definition hash : codeunit := 35%N.

(** X25: the keys [parseLine] returns are well formed.  A key is never
    empty (the last guard of the function cannot fire); it starts with a
    code unit that is neither whitespace nor the comment sign, has no
    whitespace at its end, and contains no equals sign. *)
Theorem parseLine_key (line key value : jsstring) :
  parseLine line = Some (key, value) ->
  (exists c rest, key = c :: rest /\ isWhiteSpace c = false /\ c <> hash)
  /\ trim key = key
  /\ ~ In equals key.
Proof.
  unfold parseLine. cbv zeta.
  pose proof (TranscriptFacts.trim_edgeFree line) as EF.
  destruct (trim line) as [|c0 t] eqn:T; [discriminate|]. cbn [truthy negb orb].
  assert (W : isWhiteSpace c0 = false).
  { unfold TranscriptFacts.edgeFree in EF. apply andb_true_iff in EF.
    destruct EF as [EF _]. now apply negb_true_iff. }
  destruct (App.startsWith (c0 :: t) (str "#")) eqn:H; [discriminate|].
  destruct (Z.leb_spec (SceneGate.indexOf equals (c0 :: t)) 0) as [|P]; [discriminate|].
  destruct (indexOf_split equals (c0 :: t) ltac:(lia)) as [a [b [E [N L]]]].
  rewrite L in *. rewrite Nat2Z.id.
  destruct a as [|a0 a]; [simpl in P; lia|].
  rewrite E. rewrite (firstn_length_app (a0 :: a) (equals :: b)).
  injection E as <- E.
  rewrite (trim_stop c0 a W). cbn [truthy negb].
  intros K. injection K as K _. subst key. repeat split.
  - exists c0, (trimEnd a). repeat split; [exact W|].
    intros C. rewrite C in H. unfold hash, str in H. simpl in H.
    destruct t; discriminate.
  - rewrite <- (trim_stop c0 a W). apply TranscriptFacts.edgeFree_trim_fixed.
    apply TranscriptFacts.trim_edgeFree.
  - rewrite <- (trim_stop c0 a W). intros I. apply trim_In in I. now apply N.
Qed.

Lemma parseLine_key_witness :
  (exists c rest, str "GEMINI_API_KEY" = c :: rest /\ isWhiteSpace c = false /\ c <> hash)
  /\ trim (str "GEMINI_API_KEY") = str "GEMINI_API_KEY"
  /\ ~ In equals (str "GEMINI_API_KEY").
Proof.
  apply (parseLine_key (str "  GEMINI_API_KEY = 'abc=' ") (str "GEMINI_API_KEY")
           (str "abc=")).
  reflexivity.
Defined.

Lemma trimEnd_cut s : exists cut, s = trimEnd s ++ cut /\ blank cut = true.
Proof.
  unfold trimEnd. destruct (dropWhile_prefix isWhiteSpace (rev s)) as [d [E F]].
  exists (rev d). split.
  - rewrite <- rev_app_distr, <- E. now rewrite rev_involutive.
  - unfold blank. now rewrite forallb_rev.
Qed.

Lemma trim_trimEnd s : trim (trimEnd s) = trim s.
Proof.
  destruct (trimEnd_cut s) as [cut [E B]].
  rewrite E at 2. symmetry. exact (trim_padded [] (trimEnd s) cut eq_refl B).
Qed.

Lemma blank_no_equals p : blank p = true -> ~ In equals p.
Proof.
  intros B I. unfold blank in B. rewrite forallb_forall in B.
  specialize (B equals I). discriminate.
Qed.

(** How a value is written in the file: as it is, when it has no
    whitespace and no quote at either end, or between two quotes. *)
Definition startsUnquoted (s : jsstring) : bool :=
  match s with
  | [] => true
  | c :: _ => negb (isQuote c)
  end.

Definition writes (value shown : jsstring) : Prop :=
  (shown = value /\ TranscriptFacts.edgeFree value = true
   /\ startsUnquoted value = true /\ startsUnquoted (rev value) = true)
  \/ (exists q q', isQuote q = true /\ isQuote q' = true /\ shown = q :: value ++ [q']).

Lemma quote_not_space q : isQuote q = true -> isWhiteSpace q = false.
Proof.
  unfold isQuote. intros H. apply orb_true_iff in H.
  destruct H as [H|H]; apply N.eqb_eq in H; now subst q.
Qed.

Lemma writes_read value shown :
  writes value shown ->
  TranscriptFacts.edgeFree shown = true /\ stripQuotes shown = value.
Proof.
  intros [[-> [E [A B]]] | [q [q' [Q [Q' ->]]]]].
  - split; [exact E|]. unfold stripQuotes.
    destruct value as [|c r]; [reflexivity|].
    simpl in A. apply negb_true_iff in A. rewrite A.
    destruct (rev (c :: r)) as [|z u] eqn:R;
      [|simpl in B; apply negb_true_iff in B; now rewrite B].
    apply (f_equal (@rev _)) in R. rewrite rev_involutive in R. discriminate.
  - split.
    + unfold TranscriptFacts.edgeFree. cbn [TranscriptFacts.startsClean rev].
      rewrite rev_app_distr. cbn [rev app TranscriptFacts.startsClean].
      now rewrite (quote_not_space q Q), (quote_not_space q' Q').
    + unfold stripQuotes. rewrite Q, rev_app_distr. cbn [rev app]. rewrite Q'.
      apply rev_involutive.
Qed.

(** X26: a line of the file is read back as written.  Whitespace around
    the line, the key, the separator and the value is dropped, and a value
    written between quotes comes back without them, whatever it contains. *)
Theorem parseLine_reads_back (p1 key p2 p3 shown p4 value : jsstring) :
  blank p1 = true -> blank p2 = true -> blank p3 = true -> blank p4 = true ->
  key <> [] -> TranscriptFacts.edgeFree key = true ->
  ~ In equals key -> App.startsWith key (str "#") = false ->
  writes value shown ->
  parseLine (p1 ++ key ++ p2 ++ [equals] ++ p3 ++ shown ++ p4) = Some (key, value).
Proof.
  intros B1 B2 B3 B4 K EF N H Wr.
  destruct (writes_read value shown Wr) as [ES <-].
  destruct key as [|k0 kr]; [congruence|].
  assert (W : isWhiteSpace k0 = false).
  { unfold TranscriptFacts.edgeFree in EF. apply andb_true_iff in EF.
    destruct EF as [EF _]. now apply negb_true_iff. }
  assert (T : trim (p1 ++ (k0 :: kr) ++ p2 ++ [equals] ++ p3 ++ shown ++ p4)
              = ((k0 :: kr) ++ p2) ++ equals :: trimEnd (p3 ++ shown)).
  { replace (p1 ++ (k0 :: kr) ++ p2 ++ [equals] ++ p3 ++ shown ++ p4)
      with (p1 ++ ((k0 :: kr) ++ p2 ++ [equals] ++ p3 ++ shown) ++ p4)
      by now rewrite <- !app_assoc.
    rewrite (trim_padded p1 _ p4 B1 B4). cbn [app].
    rewrite (trim_stop k0 _ W). f_equal.
    replace (kr ++ p2 ++ equals :: p3 ++ shown)
      with ((kr ++ p2) ++ equals :: (p3 ++ shown)) by now rewrite <- app_assoc.
    now apply trimEnd_stop. }
  unfold parseLine. cbv zeta. rewrite T.
  assert (S : App.startsWith (((k0 :: kr) ++ p2) ++ equals :: trimEnd (p3 ++ shown))
                (str "#") = false).
  { cbn in H |- *. destruct (N.eqb k0 35); [|reflexivity].
    destruct kr; discriminate H. }
  assert (I : SceneGate.indexOf equals
                (((k0 :: kr) ++ p2) ++ equals :: trimEnd (p3 ++ shown))
              = Z.of_nat (length ((k0 :: kr) ++ p2))).
  { apply indexOf_app. intros F. apply in_app_or in F.
    destruct F as [F|F]; [now apply N | now apply (blank_no_equals p2 B2)]. }
  rewrite S, I. cbn [truthy app negb orb].
  destruct (Z.leb_spec (Z.of_nat (length (k0 :: kr ++ p2))) 0) as [L|_];
    [cbn [length] in L; lia|].
  rewrite Nat2Z.id.
  replace (Z.to_nat (Z.of_nat (length (k0 :: kr ++ p2)) + 1))
    with (length (k0 :: kr ++ p2) + 1)%nat by lia.
  change (k0 :: (kr ++ p2) ++ equals :: trimEnd (p3 ++ shown))
    with ((k0 :: kr ++ p2) ++ equals :: trimEnd (p3 ++ shown)).
  rewrite firstn_length_app, skipn_length_app.
  change (k0 :: kr ++ p2) with ([] ++ (k0 :: kr) ++ p2).
  rewrite (trim_padded [] (k0 :: kr) p2 eq_refl B2).
  rewrite (TranscriptFacts.edgeFree_trim_fixed _ EF). cbn [truthy negb].
  rewrite trim_trimEnd.
  replace (p3 ++ shown) with (p3 ++ shown ++ []) by now rewrite app_nil_r.
  rewrite (trim_padded p3 shown [] B3 eq_refl).
  now rewrite (TranscriptFacts.edgeFree_trim_fixed _ ES).
Qed.

Lemma parseLine_reads_back_witness :
  parseLine (str "  " ++ str "GEMINI_API_KEY" ++ str " " ++ [equals] ++ str " "
               ++ str "'abc= d'" ++ str " ")
  = Some (str "GEMINI_API_KEY", str "abc= d").
Proof.
  apply parseLine_reads_back; try reflexivity.
  - discriminate.
  - intros I. repeat (destruct I as [I|I]; [discriminate|]). exact I.
  - right. exists 39%N, 39%N. repeat split.
Defined.

End EnvFile.


(* ------------------------------------------------------------------ *)
(** ** The client side of the socket ([useLiveConnection]) *)

Module Connection.
Import JS Wire.

Local Open Scope nat_scope.

(** [WebSocket.readyState] *)
Inductive ReadyState := CONNECTING | OPEN | CLOSING | CLOSED.

Definition isOpen (r : ReadyState) : bool :=
  match r with OPEN => true | _ => false end.
Definition isConnecting (r : ReadyState) : bool :=
  match r with CONNECTING => true | _ => false end.
Definition isClosed (r : ReadyState) : bool :=
  match r with CLOSED => true | _ => false end.

(** Sockets are told apart by the order of their creation. *)
Definition Socket := nat.

(** The three refs and the state cell of the hook; the ready state of every
    socket created so far; what was sent over which socket and what was
    handed to [onServerMessage], oldest first. *)
#[projections(primitive)]
Record Hook := mkHook {
  wsRef : option Socket;
  pendingInstructionRef : jsstring;
  hasActiveSessionRef : bool;
  connectionState : App.ConnectionState;
  sockets : list ReadyState;
  sent : list (Socket * ClientSocketMessage);
  delivered : list ServerSocketMessage
}.

Definition initial : Hook := mkHook None [] false App.disconnected [] [] [].

Definition setWsRef v '(mkHook a b c d e f g) := mkHook v b c d e f g.
Definition setPendingInstructionRef v '(mkHook a b c d e f g) := mkHook a v c d e f g.
Definition setHasActiveSessionRef v '(mkHook a b c d e f g) := mkHook a b v d e f g.
Definition setConnectionState v '(mkHook a b c d e f g) := mkHook a b c v e f g.
Definition setSockets v '(mkHook a b c d e f g) := mkHook a b c d v f g.
Definition socketSend (x : Socket * ClientSocketMessage) '(mkHook a b c d e f g) :=
  mkHook a b c d e (f ++ [x]) g.
Definition onServerMessage (x : ServerSocketMessage) '(mkHook a b c d e f g) :=
  mkHook a b c d e f (g ++ [x]).

Definition readyState (socket : Socket) (h : Hook) : ReadyState :=
  nth socket (sockets h) CLOSED.

Fixpoint replace (socket : Socket) (r : ReadyState) (l : list ReadyState)
    : list ReadyState :=
  match l, socket with
  | [], _ => []
  | _ :: rest, O => r :: rest
  | x :: rest, S n => x :: replace n r rest
  end.

Definition setReadyState (socket : Socket) (r : ReadyState) (h : Hook) : Hook :=
  setSockets (replace socket r (sockets h)) h.

(** [socket.close()]: a socket that is connecting or open starts closing. *)
Definition close (socket : Socket) (h : Hook) : Hook :=
  match readyState socket h with
  | CONNECTING | OPEN => setReadyState socket CLOSING h
  | _ => h
  end.

Definition sendMessage (message : ClientSocketMessage) (h : Hook) : Hook :=
  match wsRef h with
  | Some socket =>
      if isOpen (readyState socket h) then socketSend (socket, message) h else h
  | None => h
  end.

(** [new WebSocket(socketUrl)] and what follows it in [openSocket]. *)
Definition newSocket (h : Hook) : Hook :=
  let socket := length (sockets h) in
  setConnectionState App.connecting
    (setWsRef (Some socket) (setSockets (sockets h ++ [CONNECTING]) h)).

Definition openSocket (h : Hook) : Hook :=
  match wsRef h with
  | Some socket =>
      if isOpen (readyState socket h) || isConnecting (readyState socket h)
      then h else newSocket h
  | None => newSocket h
  end.

Definition startSession (systemInstruction : jsstring) (h : Hook) : Hook :=
  let h := setPendingInstructionRef systemInstruction h in
  let h := setHasActiveSessionRef false h in
  match wsRef h with
  | Some socket =>
      if isOpen (readyState socket h)
      then sendMessage (SessionConnect (Some systemInstruction)) h
      else openSocket h
  | None => openSocket h
  end.

Definition stopSession (h : Hook) : Hook :=
  let h := sendMessage SessionDisconnect h in
  let h := match wsRef h with
           | Some socket => setWsRef None (close socket h)
           | None => h
           end in
  setConnectionState App.disconnected (setHasActiveSessionRef false h).

Definition whenActive (message : ClientSocketMessage) (h : Hook) : Hook :=
  if negb (hasActiveSessionRef h) then h else sendMessage message h.

Definition sendTextTurn (text : jsstring) (turnComplete : option bool) (h : Hook) : Hook :=
  whenActive (TextTurn text (Some match turnComplete with
                                  | Some given => given
                                  | None => true
                                  end)) h.
Definition sendAudioChunk (data mimeType : jsstring) : Hook -> Hook :=
  whenActive (AudioChunk data mimeType).
Definition endAudioStream : Hook -> Hook := whenActive AudioEnd.
Definition sendVideoFrame (data mimeType : jsstring) : Hook -> Hook :=
  whenActive (VideoFrame data mimeType).
Definition sendActivityStart : Hook -> Hook := whenActive ActivityStart.
Definition sendActivityEnd : Hook -> Hook := whenActive ActivityEnd.

(** The handlers [openSocket] installs on a socket.  They read [wsRef], not
    the socket they are installed on. *)
Definition onopen (h : Hook) : Hook :=
  sendMessage (SessionConnect (Some (pendingInstructionRef h))) h.

(** [parsed] is the result of [JSON.parse], if it returns a message; the
    [onServerMessage] of the component is taken to return normally. *)
Definition onmessage (parsed : option ServerSocketMessage) (h : Hook) : Hook :=
  match parsed with
  | Some message =>
      let h :=
        match message with
        | SessionConnected _ =>
            setConnectionState App.connected (setHasActiveSessionRef true h)
        | SessionClosed _ =>
            let h := setConnectionState App.disconnected
                       (setHasActiveSessionRef false h) in
            match wsRef h with
            | Some socket => if isOpen (readyState socket h) then close socket h else h
            | None => h
            end
        | _ => h
        end in
      onServerMessage message h
  | None =>
      onServerMessage (LiveError (str "Failed to parse websocket server message.")) h
  end.

Definition onerror (h : Hook) : Hook :=
  onServerMessage (LiveError (str "WebSocket error while communicating with server.")) h.

Definition onclose (h : Hook) : Hook :=
  setWsRef None (setConnectionState App.disconnected (setHasActiveSessionRef false h)).

(** The cleanup of the effect. *)
Definition unmount (h : Hook) : Hook :=
  let h := match wsRef h with
           | Some socket => close socket h
           | None => h
           end in
  setHasActiveSessionRef false h.

(** Calls of the component, and events of the platform.  The platform opens
    a socket that is connecting, delivers messages on a socket that is open,
    and closes a socket once. *)
Inductive Event :=
  | StartSession (systemInstruction : jsstring)
  | StopSession
  | SendTextTurn (text : jsstring) (turnComplete : option bool)
  | SendAudioChunk (data mimeType : jsstring)
  | EndAudioStream
  | SendVideoFrame (data mimeType : jsstring)
  | SendActivityStart
  | SendActivityEnd
  | Unmount
  | Opened (socket : Socket)
  | Received (socket : Socket) (parsed : option ServerSocketMessage)
  | Errored (socket : Socket)
  | Closed (socket : Socket).

Definition step (h : Hook) (e : Event) : Hook :=
  match e with
  | StartSession systemInstruction => startSession systemInstruction h
  | StopSession => stopSession h
  | SendTextTurn text turnComplete => sendTextTurn text turnComplete h
  | SendAudioChunk data mimeType => sendAudioChunk data mimeType h
  | EndAudioStream => endAudioStream h
  | SendVideoFrame data mimeType => sendVideoFrame data mimeType h
  | SendActivityStart => sendActivityStart h
  | SendActivityEnd => sendActivityEnd h
  | Unmount => unmount h
  | Opened socket =>
      if isConnecting (readyState socket h)
      then onopen (setReadyState socket OPEN h) else h
  | Received socket parsed =>
      if isOpen (readyState socket h) then onmessage parsed h else h
  | Errored socket =>
      if (socket <? length (sockets h))%nat then onerror h else h
  | Closed socket =>
      if isClosed (readyState socket h) then h
      else onclose (setReadyState socket CLOSED h)
  end.

Definition run (trace : list Event) (h : Hook) : Hook := fold_left step trace h.

(** Messages that carry the conversation, as opposed to the two that open
    and close a session. *)
Definition isData (message : ClientSocketMessage) : bool :=
  match message with
  | SessionConnect _ | SessionDisconnect | Ping => false
  | _ => true
  end.

(** The server's confirmation of a session. *)
Definition confirms (e : Event) : bool :=
  match e with
  | Received _ (Some (SessionConnected _)) => true
  | _ => false
  end.

Ltac hook_unfold :=
  unfold startSession, stopSession, sendTextTurn, sendAudioChunk, endAudioStream,
    sendVideoFrame, sendActivityStart, sendActivityEnd, whenActive, unmount,
    onopen, onmessage, onerror, onclose, openSocket, newSocket, sendMessage,
    close, setReadyState, readyState;
  cbn; split_branches; cbn.

Ltac hook_cases h := destruct h as [w p a c so se de]; hook_unfold.

Definition ActiveShown (h : Hook) : Prop :=
  hasActiveSessionRef h = true -> connectionState h = App.connected.

Lemma step_active h e : ActiveShown h -> ActiveShown (step h e).
Proof.
  unfold ActiveShown.
  destruct e; cbn [step]; hook_cases h; intros; try discriminate; auto.
Qed.

Lemma run_active trace : forall h, ActiveShown h -> ActiveShown (run trace h).
Proof.
  induction trace as [|e trace IH]; intros h I; [exact I|].
  apply (IH (step h e)). now apply step_active.
Qed.

(** X27: the hook reports [connected] whenever it lets conversation
    messages through: after any sequence of calls and socket events,
    [hasActiveSessionRef] is set only while [connectionState] is
    [connected]. *)
Theorem active_session_is_connected (trace : list Event) :
  hasActiveSessionRef (run trace initial) = true ->
  connectionState (run trace initial) = App.connected.
Proof. apply (run_active trace initial). discriminate. Qed.

Definition handshake : list Event :=
  [ StartSession (str "Be brief."); Opened 0; Received 0 (Some (SessionConnected None)) ].

Lemma active_session_is_connected_witness :
  connectionState (run handshake initial) = App.connected.
Proof. apply (active_session_is_connected handshake). reflexivity. Defined.

(** *** Nothing is streamed before the server confirms *)

Definition quiet (added : list (Socket * ClientSocketMessage)) : bool :=
  forallb (fun x => negb (isData (snd x))) added.

Lemma step_unconfirmed h e :
  confirms e = false -> hasActiveSessionRef h = false ->
  hasActiveSessionRef (step h e) = false
  /\ exists added, sent (step h e) = sent h ++ added /\ quiet added = true.
Proof.
  intros C A.
  destruct h as [w p a c so se de]. cbn in A. subst a.
  destruct e as [i| |t tc|d m| |d m| | | |s|s [[]|]|s|s]; try discriminate C;
    cbn [step]; hook_unfold;
    (split; [reflexivity|]);
    first [ exists []; split; [now rewrite app_nil_r | reflexivity]
          | eexists [_]; split; reflexivity ].
Qed.

Lemma run_unconfirmed later : forall h,
  forallb (fun e => negb (confirms e)) later = true ->
  hasActiveSessionRef h = false ->
  exists added, sent (run later h) = sent h ++ added /\ quiet added = true.
Proof.
  induction later as [|e later IH]; intros h Q A.
  - exists []. now rewrite app_nil_r.
  - simpl in Q. apply andb_true_iff in Q. destruct Q as [Q1 Q2].
    apply negb_true_iff in Q1.
    destruct (step_unconfirmed h e Q1 A) as [A' [added1 [E1 N1]]].
    destruct (IH (step h e) Q2 A') as [added2 [E2 N2]].
    exists (added1 ++ added2). split.
    + cbn [run fold_left]. fold (run later (step h e)).
      now rewrite E2, E1, app_assoc.
    + unfold quiet in *. now rewrite forallb_app, N1, N2.
Qed.

(** X28: nothing of the conversation is sent before the server confirms
    the session.  After [startSession], whatever the component calls and
    whatever happens on the sockets, as long as no [session.connected] has
    arrived the hook sends no text, audio, video or activity message: only
    session control messages go out. *)
Theorem nothing_streamed_before_confirmation (h : Hook) (systemInstruction : jsstring)
          (later : list Event) :
  forallb (fun e => negb (confirms e)) later = true ->
  exists added,
    sent (run later (step h (StartSession systemInstruction)))
    = sent (step h (StartSession systemInstruction)) ++ added
    /\ forallb (fun x => negb (isData (snd x))) added = true.
Proof.
  intros Q. apply run_unconfirmed; [exact Q|].
  cbn [step]. hook_cases h; reflexivity.
Qed.

Definition eager : list Event :=
  [ Opened 0; SendAudioChunk (str "AAAA") (str "audio/pcm;rate=16000");
    Received 0 (Some (ServerReady (str "gemini")));
    SendTextTurn (str "hello") None; StopSession ].

Lemma nothing_streamed_before_confirmation_witness :
  exists added,
    sent (run eager (step initial (StartSession (str "Be brief."))))
    = sent (step initial (StartSession (str "Be brief."))) ++ added
    /\ forallb (fun x => negb (isData (snd x))) added = true.
Proof.
  apply (nothing_streamed_before_confirmation initial (str "Be brief.") eager).
  reflexivity.
Defined.

(** What the hook sends in that run: the two control messages. *)
Example eager_sends :
  map snd (sent (run (StartSession (str "Be brief.") :: eager) initial))
  = [SessionConnect (Some (str "Be brief.")); SessionDisconnect].
Proof. reflexivity. Qed.

(** *** A close event that arrives late *)

Lemma nth_replace_other (a b : nat) r l :
  a <> b -> nth a (replace b r l) CLOSED = nth a l CLOSED.
Proof.
  revert a b. induction l as [|x l IH]; intros a b N.
  - now destruct b.
  - destruct b as [|b]; destruct a as [|a]; cbn; try reflexivity; try congruence.
    apply IH. congruence.
Qed.

Lemma nth_replace_same (b : nat) r l :
  nth b l CLOSED <> CLOSED -> nth b (replace b r l) CLOSED = r.
Proof.
  revert b. induction l as [|x l IH]; intros b N.
  - destruct b; now elim N.
  - destruct b as [|b]; cbn; [reflexivity|]. now apply IH.
Qed.

(** X29: the handlers of a socket act on [wsRef], whichever socket they
    were installed on.  So when the close event of an earlier socket arrives
    while a newer socket is still connecting, the hook forgets the newer
    socket: once that one opens, no [session.connect] is sent over it, it
    stays open unreferenced, and the hook reports [disconnected]. *)
Theorem late_close_forgets_new_socket (h : Hook) (earlier newer : Socket) :
  wsRef h = Some newer ->
  readyState newer h = CONNECTING ->
  earlier <> newer ->
  readyState earlier h <> CLOSED ->
  let h' := step (step h (Closed earlier)) (Opened newer) in
  sent h' = sent h
  /\ wsRef h' = None
  /\ readyState newer h' = OPEN
  /\ connectionState h' = App.disconnected.
Proof.
  destruct h as [w p a c so se de]. unfold readyState. cbn.
  intros -> N D E. unfold readyState. cbn.
  destruct (nth earlier so CLOSED) eqn:R; try congruence;
    unfold onclose, setReadyState, readyState; cbn;
    rewrite (nth_replace_other newer earlier _ so (not_eq_sym D)), N; cbn;
    unfold onopen, sendMessage, setReadyState, readyState; cbn;
    (repeat split; []);
    (rewrite nth_replace_same;
     [reflexivity | rewrite nth_replace_other by congruence; rewrite N; discriminate]).
Qed.

(** Stop, then start again before the first socket has finished closing. *)
Definition restart : list Event :=
  [ StartSession (str "Be brief."); Opened 0;
    Received 0 (Some (SessionConnected None));
    StopSession; StartSession (str "Be brief.") ].

Lemma late_close_forgets_new_socket_witness :
  sent (step (step (run restart initial) (Closed 0)) (Opened 1))
  = sent (run restart initial)
  /\ wsRef (step (step (run restart initial) (Closed 0)) (Opened 1)) = None
  /\ readyState 1 (step (step (run restart initial) (Closed 0)) (Opened 1)) = OPEN
  /\ connectionState (step (step (run restart initial) (Closed 0)) (Opened 1))
     = App.disconnected.
Proof.
  apply (late_close_forgets_new_socket (run restart initial) 0 1);
    try reflexivity; discriminate.
Defined.

End Connection.
